(** * subencode: the sub-encoding search of subencode.py

    A shallow embedding of [check_div], [encode_byte], [encode_chunk] and
    [decode] of src/subencode.py, and the properties of the specification
    stated over it.

    Python integers are [Z]; [//] and [%] are [Z.div] and [Z.modulo] (both
    floor, remainder with the sign of the divisor); [& 0xFF] and
    [& 0xFFFFFFFF] are [Z.land].  A [bytes] object is a [list Z] whose
    elements lie in [0, 256) (predicate [is_bytes]): the order and the
    repetitions of [good_bytes] matter to the search, so it is a list and
    not a set.  Exceptions are values of [exn], and a call returns a
    [result].  The [while True] loop of [encode_chunk] takes fuel; every
    [for] loop runs over a finite range and is a structural recursion. *)

From Stdlib Require Import ZArith List Bool Lia Permutation.
Import ListNotations.
Local Open Scope Z_scope.

(** ** Exceptions and results *)

(** The three exception classes of subencode.py and the built-in ones its
    expressions can raise. *)
Inductive exn : Type :=
| EncodingFailure
| DivisionFailed
| BiggerDivision (div : Z)
| NameError
| ZeroDivisionError
| ValueError
| IndexError
| StructError.

Inductive result (A : Type) : Type :=
| Ok (a : A)
| Raise (e : exn).
Arguments Ok {A} a.
Arguments Raise {A} e.

Definition bind {A B : Type} (r : result A) (k : A -> result B) : result B :=
  match r with
  | Ok a => k a
  | Raise e => Raise e
  end.

Notation "x <- r ;; k" := (bind r (fun x => k))
  (at level 61, r at next level, right associativity).

(** ** The global name [mod]

    Line 53 of subencode.py reads [mod == 0], but the function assigns the
    remainder to [m]; [mod] is not bound anywhere in the file and is not a
    Python built-in.  The only place it can come from is
    [from pwn import *].  pwntools' [pwnlib.util.packing] has the module
    level assignment [mod = sys.modules[__name__]] and no [__all__], so the
    star import binds [mod] to a module object, and a module object is
    never equal to [0].  Evaluating [mod == 0] therefore has one of two
    outcomes, and the embedding takes which one as a parameter:
    - [mod_module]: the name is bound by the star import, [mod == 0] is
      [False] and the branch of line 54 is dead;
    - [mod_unbound]: the name is not bound, evaluating it raises
      [NameError]. *)
Inductive mod_binding : Type :=
| mod_module
| mod_unbound.

(** ** Bytes *)

Definition is_byte (b : Z) : bool := (0 <=? b) && (b <? 256).

Definition is_bytes (bs : list Z) : Prop := Forall (fun b => 0 <= b < 256) bs.

(** [v in good_bytes] for an integer [v], already known to be a byte. *)
Definition mem (v : Z) (good_bytes : list Z) : bool :=
  existsb (Z.eqb v) good_bytes.

(** [p32(X)] of pwntools, default context: four bytes, least significant
    first. *)
Definition p32 (X : Z) : list Z :=
  [ Z.land X 255;
    Z.land (Z.shiftr X 8) 255;
    Z.land (Z.shiftr X 16) 255;
    Z.land (Z.shiftr X 24) 255 ].

(** [u32(bytes(v))]: [bytes] raises [ValueError] on an element outside
    [range(256)], [u32] raises [struct.error] unless it gets four bytes. *)
Definition u32 (v : list Z) : result Z :=
  if forallb is_byte v then
    match v with
    | [b0; b1; b2; b3] =>
        Ok (b0 + b1 * 2 ^ 8 + b2 * 2 ^ 16 + b3 * 2 ^ 24)
    | _ => Raise StructError
    end
  else Raise ValueError.

Definition sum (l : list Z) : Z := fold_right Z.add 0 l.

(** ** check_div *)

(** [itertools.combinations_with_replacement(pool, r)], in the order
    itertools yields them. *)
Fixpoint combinations_with_replacement (r : nat) : list Z -> list (list Z) :=
  match r with
  | O => fun _ => [[]]
  | S r' =>
      fix from (pool : list Z) : list (list Z) :=
        match pool with
        | [] => []
        | a :: pool' =>
            map (cons a) (combinations_with_replacement r' pool) ++ from pool'
        end
  end.

(** Lines 61-69: [for split in range(1, div)], here as [n] iterations
    starting at [split]; the first [offset_list] whose sum is [m] decides
    the values returned. *)
Fixpoint split_loop (n : nat) (split : Z) (v m div : Z) (offsets : list Z)
  : option (list Z) :=
  match n with
  | O => None
  | S n' =>
      match find (fun offset_list => sum offset_list =? m)
                 (combinations_with_replacement (Z.to_nat split) offsets) with
      | Some offset_list =>
          Some (map (fun offset => v + offset) offset_list
                  ++ repeat v (Z.to_nat (div - split)))
      | None => split_loop n' (split + 1) v m div offsets
      end
  end.

(** Lines 58-69, entered when [v in good_bytes]. *)
Definition offset_split (v m div : Z) (good_bytes : list Z) : option (list Z) :=
  let offsets := map (fun c => c - v) good_bytes in
  split_loop (Z.to_nat (div - 1)) 1 v m div offsets.

(** Lines 56-69: the values found, or [None] when control reaches line 71. *)
Definition find_values (v m div : Z) (good_bytes : list Z) : option (list Z) :=
  if mem v good_bytes then offset_split v m div good_bytes else None.

(** [retries] is the number of recursive calls still allowed: the source's
    [recurse=False] is one, [recurse=True] is none. *)
Fixpoint check_div_from (retries : nat) (g : mod_binding)
    (x div : Z) (good_bytes : list Z) (carry : Z) : result (Z * list Z) :=
  if div =? 0 then Raise ZeroDivisionError else
  let v := x / div in
  let m := x mod div in
  if 256 <=? v then Raise DivisionFailed else
  match g with
  | mod_unbound => Raise NameError
  | mod_module =>
      (* [mod == 0 and ...] is false without evaluating [v in good_bytes] *)
      if v <? 0 then Raise ValueError else
      match find_values v m div good_bytes with
      | Some values => Ok (carry, values)
      | None =>
          match retries with
          | O => Raise DivisionFailed
          | S retries' =>
              check_div_from retries' g (x + 256) div good_bytes (carry + 1)
          end
      end
  end.

Definition check_div (g : mod_binding) (x div : Z) (good_bytes : list Z)
    (carry : Z) (recurse : bool) : result (Z * list Z) :=
  check_div_from (if recurse then 0%nat else 1%nat) g x div good_bytes carry.

(** ** encode_byte *)

(** The [for div in range(start_div, max_div & 0xFFFFFFFF)] loop with its
    [else] clause: [n] divisors are left, [div] is the next one. *)
Fixpoint encode_byte_loop (n : nat) (g : mod_binding) (div : Z)
    (x : Z) (good_bytes : list Z) (min_div carry : Z) : result (Z * list Z) :=
  match n with
  | O => Raise EncodingFailure
  | S n' =>
      match check_div g x div good_bytes carry false with
      | Ok (carry', v) =>
          if negb (min_div =? 0) && (min_div <? div)
          then Raise (BiggerDivision div)
          else Ok (carry', v)
      | Raise DivisionFailed =>
          encode_byte_loop n' g (div + 1) x good_bytes min_div carry
      | Raise e => Raise e
      end
  end.

Definition encode_byte (g : mod_binding) (x : Z) (good_bytes : list Z)
    (min_div max_div carry : Z) : result (Z * list Z) :=
  let start_div := if min_div =? 0 then 1 else min_div in
  let stop := Z.land max_div 0xFFFFFFFF in
  encode_byte_loop (Z.to_nat (stop - start_div)) g start_div
                   x good_bytes min_div carry.

(** ** encode_chunk *)

(** The local variables [div], [carry] and [encodings] of [encode_chunk]. *)
Record state : Type := mkState {
  st_div : Z;
  st_carry : Z;
  st_encodings : list (list Z)
}.

(** [[[] for i in range(div)]] *)
Definition empty_matrix (div : Z) : list (list Z) :=
  repeat [] (Z.to_nat div).

(** [for i, v in enumerate(values): encodings[i].append(v)] *)
Fixpoint append_values (encodings : list (list Z)) (values : list Z)
  : result (list (list Z)) :=
  match values with
  | [] => Ok encodings
  | v :: values' =>
      match encodings with
      | [] => Raise IndexError
      | row :: rows =>
          rows' <- append_values rows values' ;;
          Ok ((row ++ [v]) :: rows')
      end
  end.

Fixpoint map_result {A B : Type} (f : A -> result B) (l : list A)
  : result (list B) :=
  match l with
  | [] => Ok []
  | a :: l' =>
      b <- f a ;;
      bs <- map_result f l' ;;
      Ok (b :: bs)
  end.

(** How one execution of the [try] block (lines 137-168) ends. *)
Inductive pass_outcome : Type :=
| Returned (encodings_final : list Z)
| Caught (d : Z) (st : state)     (* BiggerDivision(d), locals as they are then *)
| Propagated (e : exn).

(** The [for i, x in enumerate(p32(X))] loop over the bytes still to do. *)
Fixpoint encode_bytes (g : mod_binding) (xs : list Z) (good_bytes : list Z)
    (max_div : Z) (st : state) : pass_outcome :=
  match xs with
  | [] =>
      match map_result u32 (st_encodings st) with
      | Ok encodings_final => Returned encodings_final
      | Raise e => Propagated e
      end
  | x0 :: xs' =>
      let carry0 := st_carry st in
      let x := Z.land (x0 - carry0) 0xFF in
      let carry := if x0 <? carry0 then 1 else 0 in
      match encode_byte g x good_bytes (st_div st) max_div carry with
      | Ok (carry', values) =>
          let div := if st_div st =? 0 then Z.of_nat (length values)
                     else st_div st in
          let encodings := if st_div st =? 0 then empty_matrix div
                           else st_encodings st in
          match append_values encodings values with
          | Ok encodings' =>
              encode_bytes g xs' good_bytes max_div (mkState div carry' encodings')
          | Raise e => Propagated e
          end
      | Raise (BiggerDivision d) =>
          Caught d (mkState (st_div st) carry (st_encodings st))
      | Raise e => Propagated e
      end
  end.

(** Lines 170-176: the handler rebinds [div] and [encodings] and nothing
    else. *)
Definition restart (d : Z) (st : state) : state :=
  mkState d (st_carry st) (empty_matrix d).

(** The [while True] loop. *)
Fixpoint encode_chunk_loop (fuel : nat) (g : mod_binding) (X : Z)
    (good_bytes : list Z) (max_div : Z) (st : state)
  : option (result (list Z)) :=
  match fuel with
  | O => None
  | S fuel' =>
      match encode_bytes g (p32 X) good_bytes max_div st with
      | Returned encodings_final => Some (Ok encodings_final)
      | Caught d st' =>
          encode_chunk_loop fuel' g X good_bytes max_div (restart d st')
      | Propagated e => Some (Raise e)
      end
  end.

Definition initial_state : state := mkState 0 0 [].

Definition encode_chunk (fuel : nat) (g : mod_binding)
    (chunk : Z) (good_bytes : list Z) (initial max_div : Z)
  : option (result (list Z)) :=
  let X := Z.land (initial - chunk) 0xFFFFFFFF in
  encode_chunk_loop fuel g X good_bytes max_div initial_state.

(** ** decode *)

Definition decode (encodings : list Z) (initial : Z) : Z :=
  fold_left (fun r v => Z.land (r - v) 0xFFFFFFFF) encodings initial.

Definition verify_chunk (chunk : Z) (encodings : list Z) (initial : Z) : bool :=
  chunk =? decode encodings initial.

(** ** The chunk loop of the command line tool

    Lines 241-267: the input is read four bytes at a time, the last group
    is padded with null bytes, and each group is encoded and verified.
    [data] is what is left of the input stream.  [log.error] belongs to
    pwntools: a run is followed up to its first call of [log.error], whose
    arguments are kept, and not beyond. *)

(** [chunk.ljust(width, fill)] *)
Definition ljust (chunk : list Z) (width : nat) (fill : Z) : list Z :=
  chunk ++ repeat fill (width - length chunk).

Inductive log_message : Type :=
| FailedToEncode (offset chunk : Z)
| VerificationFailed (offset chunk : Z) (encodings : list Z).

Inductive run_outcome : Type :=
| Completed (chunks : list (list Z))
| ErrorLogged (msg : log_message)
| Uncaught (e : exn).

(** The call on line 256, with the turns of the restart loop that are
    enough for it to finish. *)
Definition encode_chunk_call (g : mod_binding) (chunk : Z)
    (good_bytes : list Z) (initial max_div : Z) : option (result (list Z)) :=
  encode_chunk (S (Z.to_nat (Z.land max_div 0xFFFFFFFF)))
               g chunk good_bytes initial max_div.

(** The [while True] loop of lines 244-267. *)
Fixpoint main_loop (fuel : nat) (g : mod_binding) (data : list Z)
    (good_bytes : list Z) (initial max_div : Z)
    (offset : Z) (chunks : list (list Z)) : option run_outcome :=
  match fuel with
  | O => None
  | S fuel' =>
      match firstn 4 data with
      | [] => Some (Completed chunks)
      | read =>
          match u32 (ljust read 4 0) with
          | Raise e => Some (Uncaught e)
          | Ok chunk =>
              match encode_chunk_call g chunk good_bytes initial max_div with
              | None => None
              | Some (Raise EncodingFailure) =>
                  Some (ErrorLogged (FailedToEncode offset chunk))
              | Some (Raise e) => Some (Uncaught e)
              | Some (Ok encodings) =>
                  if negb (verify_chunk chunk encodings initial)
                  then Some (ErrorLogged
                               (VerificationFailed offset chunk encodings))
                  else main_loop fuel' g (skipn 4 data) good_bytes initial
                                 max_div offset (chunks ++ [encodings])
              end
          end
      end
  end.

(** Lines 241-242 and the loop: [chunks = []], [offset = 0]. *)
Definition run (g : mod_binding) (data : list Z) (good_bytes : list Z)
    (initial max_div : Z) : option run_outcome :=
  main_loop (S (length data)) g data good_bytes initial max_div 0 [].

Definition message_offset (msg : log_message) : Z :=
  match msg with
  | FailedToEncode offset _ => offset
  | VerificationFailed offset _ _ => offset
  end.

(** ** The splits of the specification

    Section 4.2 of the specification names two kinds of solution for a
    target [x] and a divisor count [div], with [base = x / div] and
    [rem = x % div]. *)

(** Step 2: [rem == 0] and [base] is a good byte. *)
Definition equal_split (x div : Z) (good_bytes : list Z) : Prop :=
  x mod div = 0 /\ In (x / div) good_bytes.

(** Step 3: [base] is a good byte and some multiset of [s] offsets
    [member - base], [1 <= s < div], sums to [rem]. *)
Definition offset_split_exists (x div : Z) (good_bytes : list Z) : Prop :=
  In (x / div) good_bytes /\
  exists offset_list : list Z,
    1 <= Z.of_nat (length offset_list) < div /\
    Forall (fun o => In o (map (fun c => c - x / div) good_bytes)) offset_list /\
    sum offset_list = x mod div.

(** ** Invariants of the search *)

(** The three ways a call of [encode_byte] made by [encode_chunk] ends. *)
Definition encode_byte_post (g : mod_binding) (x : Z) (good_bytes : list Z)
    (min_div stop carry : Z) (r : result (Z * list Z)) : Prop :=
  match r with
  | Ok (carry', values) =>
      exists d, 1 <= d /\ (min_div <> 0 -> d = min_div) /\
        length values = Z.to_nat d /\
        Forall (fun b => In b good_bytes) values /\
        sum values = x + 256 * (carry' - carry) /\
        carry <= carry' <= carry + 1
  | Raise (BiggerDivision d) => min_div <> 0 /\ min_div < d < stop
  | Raise e => e = EncodingFailure \/ (g = mod_unbound /\ e = NameError)
  end.

(** The matrix after [k] bytes of a pass: no divisor chosen yet and no byte
    done, or [div] rows of [k] good bytes each. *)
Definition matrix_inv (good_bytes : list Z) (k : nat) (st : state) : Prop :=
  (st_div st = 0 /\ k = 0%nat) \/
  (1 <= st_div st /\
   length (st_encodings st) = Z.to_nat (st_div st) /\
   Forall (fun row => length row = k /\ Forall (fun b => In b good_bytes) row)
          (st_encodings st)).

(** How a pass started in [st] ends: with components made of good bytes,
    with a divisor above the one of [st] and below [stop], or with an
    exception that [encode_chunk] lets through. *)
Definition pass_post (g : mod_binding) (good_bytes : list Z) (stop : Z)
    (st : state) (o : pass_outcome) : Prop :=
  match o with
  | Returned E => Forall (fun e => Forall (fun b => In b good_bytes) (p32 e)) E
  | Caught d _ => st_div st < d < stop
  | Propagated e => e = EncodingFailure \/ (g = mod_unbound /\ e = NameError)
  end.

(** The little-endian value of a row, and the sum of the values of the
    rows of a matrix; a state with no divisor chosen has no matrix yet. *)
Fixpoint le_value (row : list Z) : Z :=
  match row with
  | [] => 0
  | b :: row' => b + 256 * le_value row'
  end.

Definition matrix_sum (encodings : list (list Z)) : Z :=
  sum (map le_value encodings).

Definition matrix_sum_of (st : state) : Z :=
  if st_div st =? 0 then 0 else matrix_sum (st_encodings st).

(** Lines 90-94: where the search of [encode_byte] starts. *)
Definition start_div_of (min_div : Z) : Z :=
  if min_div =? 0 then 1 else min_div.

(** ** What the result owes to the good bytes

    [good_bytes] is a sequence; the specification speaks of a set.  Two
    sequences hold the same set when they have the same elements. *)
Definition same_bytes (G G' : list Z) : Prop :=
  forall b, In b G <-> In b G'.

(** Two results of [check_div] or [encode_byte] that agree on everything
    but the values chosen: the same carry, as many values, the same sum. *)
Definition same_split (r r' : result (Z * list Z)) : Prop :=
  match r, r' with
  | Ok (carry, values), Ok (carry', values') =>
      carry = carry' /\ length values = length values' /\
      sum values = sum values'
  | Raise e, Raise e' => e = e'
  | _, _ => False
  end.

(** Two passes that end the same way. *)
Definition same_pass (o o' : pass_outcome) : Prop :=
  match o, o' with
  | Returned E, Returned E' => length E = length E' /\ sum E = sum E'
  | Caught d st, Caught d' st' => d = d' /\ st_carry st = st_carry st'
  | Propagated e, Propagated e' => e = e'
  | _, _ => False
  end.

(** Two results of [encode_chunk] that a caller cannot tell apart but by
    the components themselves: the same exception, or encodings of the
    same length that decode from [initial] to the same value. *)
Definition same_outcome (initial : Z) (r r' : result (list Z)) : Prop :=
  match r, r' with
  | Ok E, Ok E' => length E = length E' /\ decode E initial = decode E' initial
  | Raise e, Raise e' => e = e'
  | _, _ => False
  end.

(** * Properties *)

(** ** Masks as remainders *)

Lemma land_mask32 (a : Z) : Z.land a 0xFFFFFFFF = a mod 2 ^ 32.
Proof. exact (Z.land_ones a 32 ltac:(lia)). Qed.

Lemma land_mask8 (a : Z) : Z.land a 0xFF = a mod 2 ^ 8.
Proof. exact (Z.land_ones a 8 ltac:(lia)). Qed.

(** ** decode *)

Lemma decode_cons (v : Z) (E : list Z) (r : Z) :
  decode (v :: E) r = decode E ((r - v) mod 2 ^ 32).
Proof. unfold decode; simpl; now rewrite land_mask32. Qed.

Lemma decode_mod (E : list Z) :
  forall r, decode E r mod 2 ^ 32 = (r - sum E) mod 2 ^ 32.
Proof.
  induction E as [|v E IH]; intros r.
  - simpl; now rewrite Z.sub_0_r.
  - rewrite decode_cons, IH; simpl.
    rewrite Zminus_mod_idemp_l; f_equal; lia.
Qed.

Lemma decode_range (E : list Z) :
  forall r, 0 <= r < 2 ^ 32 -> 0 <= decode E r < 2 ^ 32.
Proof.
  induction E as [|v E IH]; intros r Hr; [exact Hr|].
  rewrite decode_cons; apply IH, Z.mod_pos_bound; lia.
Qed.

Lemma decode_closed_form (E : list Z) (i : Z) :
  E <> [] \/ 0 <= i < 2 ^ 32 ->
  decode E i = (i - sum E) mod 2 ^ 32.
Proof.
  intros H; rewrite <- decode_mod; symmetry; apply Z.mod_small.
  destruct E as [|v E].
  - destruct H as [H|H]; [congruence | exact H].
  - rewrite decode_cons; apply decode_range, Z.mod_pos_bound; lia.
Qed.

Lemma sum_Permutation (l l' : list Z) : Permutation l l' -> sum l = sum l'.
Proof. induction 1; simpl; lia. Qed.

Lemma sum_app (l l' : list Z) : sum (l ++ l') = sum l + sum l'.
Proof. induction l; simpl; lia. Qed.

Lemma sum_repeat (v : Z) (n : nat) : sum (repeat v n) = v * Z.of_nat n.
Proof. induction n; simpl sum; lia. Qed.

(** C10.  [decode] computes [(initial - sum encodings) mod 2^32] for every
    list of components and every 32-bit initial value (and for every
    integer initial value once the list is not empty), so it gives the same
    value on every permutation of the components. *)
Theorem decode_sum_permutation (E : list Z) (i : Z) :
  E <> [] \/ 0 <= i < 2 ^ 32 ->
  decode E i = (i - sum E) mod 2 ^ 32 /\
  forall E', Permutation E E' -> decode E' i = decode E i.
Proof.
  intros H; split; [now apply decode_closed_form|].
  intros E' HP.
  rewrite (decode_closed_form E i H), decode_closed_form.
  - now rewrite (sum_Permutation _ _ HP).
  - destruct H as [H|H]; [left | now right].
    intros ->; apply H; now apply Permutation_nil, Permutation_sym.
Qed.

Lemma decode_sum_permutation_witness :
  decode [0x33333333; 0x01020304] 0 = (0 - sum [0x33333333; 0x01020304]) mod 2 ^ 32 /\
  decode [0x01020304; 0x33333333] 0 = decode [0x33333333; 0x01020304] 0.
Proof.
  destruct (decode_sum_permutation [0x33333333; 0x01020304] 0) as [H1 H2].
  - right; lia.
  - split; [exact H1 | apply H2, perm_swap].
Defined.

(** ** The fast path of check_div *)

(** C3, evaluated where it fails.  [x = 0x41], [div = 1] and
    [good_bytes = b"A"] satisfy [x % div == 0] and [x // div in good_bytes],
    but line 53 tests the name [mod], not the remainder [m]: with [mod]
    bound by the star import the equal split is not returned, the retry
    overflows the byte and [DivisionFailed] is raised; with [mod] unbound
    the call raises [NameError]. *)
Theorem check_div_equal_split_div1 :
  0x41 mod 1 = 0 /\ 0x41 / 1 < 256 /\ In (0x41 / 1) [0x41] /\
  check_div mod_module 0x41 1 [0x41] 0 false = Raise DivisionFailed /\
  check_div mod_unbound 0x41 1 [0x41] 0 false = Raise NameError.
Proof. repeat split; try reflexivity. now left. Qed.

(** ** Scenario A *)

Lemma check_div_191 (d carry : Z) :
  1 <= d -> check_div mod_module 191 d [65] carry false = Raise DivisionFailed.
Proof.
  intros Hd; unfold check_div, check_div_from.
  replace (d =? 0) with false by lia.
  replace (256 <=? 191 / d) with false
    by (symmetry; apply Z.leb_gt; Z.div_mod_to_equations; nia).
  replace (191 / d <? 0) with false
    by (symmetry; apply Z.ltb_ge; Z.div_mod_to_equations; nia).
  unfold find_values, mem, existsb.
  replace (191 / d =? 65) with false
    by (symmetry; apply Z.eqb_neq; intros E; Z.div_mod_to_equations; lia).
  cbn [orb]; change (191 + 256) with 447.
  destruct (256 <=? 447 / d); [reflexivity|].
  replace (447 / d <? 0) with false
    by (symmetry; apply Z.ltb_ge; Z.div_mod_to_equations; nia).
  replace (447 / d =? 65) with false
    by (symmetry; apply Z.eqb_neq; intros E; Z.div_mod_to_equations; lia).
  reflexivity.
Qed.

Lemma encode_byte_loop_191 (n : nat) :
  forall d min_div carry, 1 <= d ->
  encode_byte_loop n mod_module d 191 [65] min_div carry = Raise EncodingFailure.
Proof.
  induction n as [|n IH]; intros d min_div carry Hd; [reflexivity|].
  cbn [encode_byte_loop]; rewrite check_div_191 by exact Hd.
  apply IH; lia.
Qed.

Lemma encode_byte_loop_unbound_191 (n : nat) (d min_div carry : Z) :
  1 <= d ->
  encode_byte_loop n mod_unbound d 191 [65] min_div carry
    = Raise (match n with O => EncodingFailure | S _ => NameError end).
Proof.
  intros Hd; destruct n as [|n]; [reflexivity|].
  cbn [encode_byte_loop]; unfold check_div, check_div_from.
  replace (d =? 0) with false by lia.
  replace (256 <=? 191 / d) with false
    by (symmetry; apply Z.leb_gt; Z.div_mod_to_equations; nia).
  reflexivity.
Qed.

(** C5, as the code has it.  With [G = {0x41}], [i = 0] and
    [c = 0x41414141] the value decomposed is the complement
    [X = 0xBEBEBEBF]; its low byte [0xBF] is no sum of [0x41]s, with or
    without the borrowed 256, so [encode_chunk] raises [EncodingFailure]
    under every ceiling [m] (and returns no encoding either when [mod] is
    unbound).  The list [[0x41414141]] decodes from [0] to [0xBEBEBEBF]. *)
Theorem scenario_A_complement (fuel : nat) (m : Z) :
  encode_chunk (S fuel) mod_module 0x41414141 [0x41] 0 m
    = Some (Raise EncodingFailure) /\
  (exists e, encode_chunk (S fuel) mod_unbound 0x41414141 [0x41] 0 m
               = Some (Raise e)) /\
  decode [0x41414141] 0 = 0xBEBEBEBF.
Proof.
  unfold encode_chunk.
  change (Z.land (0 - 0x41414141) 0xFFFFFFFF) with 0xBEBEBEBF.
  cbn [encode_chunk_loop].
  change (p32 0xBEBEBEBF) with [191; 190; 190; 190].
  cbn [encode_bytes initial_state st_div st_carry st_encodings].
  change (Z.land (191 - 0) 255) with 191; change (191 <? 0) with false; cbv iota.
  unfold encode_byte; change (0 =? 0) with true; cbv iota.
  split; [|split].
  - now rewrite encode_byte_loop_191 by lia.
  - rewrite encode_byte_loop_unbound_191 by lia.
    destruct (Z.to_nat _); eexists; reflexivity.
  - reflexivity.
Qed.

(** C5, as stated, at the CLI's default ceiling: no encoding is returned,
    and [[0x41414141]] does not decode to [0x41414141]. *)
Lemma scenario_A_counterexample :
  encode_chunk 10 mod_module 0x41414141 [0x41] 0 10 = Some (Raise EncodingFailure) /\
  encode_chunk 10 mod_unbound 0x41414141 [0x41] 0 10 = Some (Raise NameError) /\
  decode [0x41414141] 0 = 0xBEBEBEBF /\
  decode [0x41414141] 0 <> 0x41414141.
Proof. repeat split; try reflexivity. discriminate. Qed.

(** ** The restart of encode_chunk *)

(** C4, evaluated where it fails: [chunk = 0], [good_bytes = b"@3"],
    [initial = 0], [max_div = 10].  Byte 0 is encoded as four [0x40] with a
    borrow; byte 1 becomes [0xFF] with the structural carry set to [1] and
    needs five components, so [BiggerDivision(5)] is caught.  The handler
    sets [div] and the matrix; [carry] is still [1] when byte 0 is
    processed again. *)
Theorem restart_keeps_carry :
  encode_bytes mod_module (p32 0) [0x40; 0x33] 10 initial_state
    = Caught 5 (mkState 4 1 [[0x40]; [0x40]; [0x40]; [0x40]]) /\
  restart 5 (mkState 4 1 [[0x40]; [0x40]; [0x40]; [0x40]])
    = mkState 5 1 [[]; []; []; []; []].
Proof. split; reflexivity. Qed.

(** C1, evaluated where it fails: on the same input [encode_chunk]
    returns five components whose sum is [0xFFFFFFFF], not the complement
    [0]; they decode to [1], not to the chunk [0], and [verify_chunk]
    rejects them.  ([round_trip_first_pass] and [round_trip_up_to_carry]
    below give the part of the round trip that the code keeps.) *)
Theorem round_trip_fails_after_restart :
  encode_chunk 2 mod_module 0 [0x40; 0x33] 0 10
    = Some (Ok [0x33333333; 0x33333333; 0x33333333; 0x33333333; 0x33333333]) /\
  decode [0x33333333; 0x33333333; 0x33333333; 0x33333333; 0x33333333] 0 = 1 /\
  verify_chunk 0 [0x33333333; 0x33333333; 0x33333333; 0x33333333; 0x33333333] 0
    = false.
Proof. repeat split; reflexivity. Qed.

(** ** The search of check_div *)

Lemma combinations_with_replacement_In (r : nat) :
  forall pool l, In l (combinations_with_replacement r pool) ->
  length l = r /\ Forall (fun o => In o pool) l.
Proof.
  induction r as [|r IHr]; intros pool l Hl.
  - destruct Hl as [<-|[]]; split; [reflexivity | constructor].
  - induction pool as [|a pool IHp]; [destruct Hl|].
    cbn [combinations_with_replacement] in Hl.
    apply in_app_or in Hl; destruct Hl as [Hl|Hl].
    + apply in_map_iff in Hl; destruct Hl as (l0 & <- & Hl0).
      destruct (IHr _ _ Hl0) as [Hlen Hin]; split; [simpl; congruence|].
      constructor; [now left | exact Hin].
    + destruct (IHp Hl) as [Hlen Hin]; split; [exact Hlen|].
      eapply Forall_impl; [|exact Hin]; intros o Ho; now right.
Qed.

Lemma split_loop_some (n : nat) :
  forall split v m div offsets values,
  split_loop n split v m div offsets = Some values ->
  1 <= split -> split + Z.of_nat n <= div ->
  exists offset_list,
    1 <= Z.of_nat (length offset_list) < div /\
    Forall (fun o => In o offsets) offset_list /\
    sum offset_list = m /\
    values = map (fun offset => v + offset) offset_list
               ++ repeat v (Z.to_nat (div - Z.of_nat (length offset_list))).
Proof.
  induction n as [|n IH]; intros split v m div offsets values H Hs Hd;
    [discriminate|].
  cbn [split_loop] in H.
  destruct (find _ _) as [offset_list|] eqn:Hf.
  - apply find_some in Hf; destruct Hf as [Hin Hsum].
    apply combinations_with_replacement_In in Hin; destruct Hin as [Hlen Hall].
    exists offset_list; rewrite Hlen, Z2Nat.id by lia.
    split; [lia|]; split; [exact Hall|]; split; [now apply Z.eqb_eq|].
    congruence.
  - apply IH in H; [exact H | lia | lia].
Qed.

Lemma mem_In (v : Z) (good_bytes : list Z) :
  mem v good_bytes = true <-> In v good_bytes.
Proof.
  unfold mem; rewrite existsb_exists; split.
  - intros (c & Hc & E); apply Z.eqb_eq in E; now subst.
  - intros H; exists v; split; [exact H | apply Z.eqb_refl].
Qed.

Lemma find_values_some (v m div : Z) (good_bytes values : list Z) :
  find_values v m div good_bytes = Some values ->
  In v good_bytes /\
  exists offset_list,
    1 <= Z.of_nat (length offset_list) < div /\
    Forall (fun o => In o (map (fun c => c - v) good_bytes)) offset_list /\
    sum offset_list = m /\
    values = map (fun offset => v + offset) offset_list
               ++ repeat v (Z.to_nat (div - Z.of_nat (length offset_list))).
Proof.
  unfold find_values, offset_split.
  destruct (mem v good_bytes) eqn:Hm; [|discriminate].
  intros H; split; [now apply mem_In|].
  destruct (Z_lt_le_dec div 1) as [Hd|Hd].
  - replace (Z.to_nat (div - 1)) with 0%nat in H by lia; discriminate.
  - apply split_loop_some in H; [exact H | lia | lia].
Qed.

Lemma find_values_none (x div : Z) (good_bytes : list Z) :
  ~ offset_split_exists x div good_bytes ->
  find_values (x / div) (x mod div) div good_bytes = None.
Proof.
  intros Hno; destruct (find_values _ _ _ _) as [values|] eqn:H; [|reflexivity].
  exfalso; apply Hno; apply find_values_some in H.
  destruct H as (Hv & offset_list & Hlen & Hall & Hsum & _).
  split; [exact Hv | now exists offset_list].
Qed.

(** The body of [check_div] in the order the source runs it. *)
Lemma check_div_from_eq (retries : nat) (g : mod_binding) (x div : Z)
    (good_bytes : list Z) (carry : Z) :
  check_div_from retries g x div good_bytes carry =
  if div =? 0 then Raise ZeroDivisionError else
  if 256 <=? x / div then Raise DivisionFailed else
  match g with
  | mod_unbound => Raise NameError
  | mod_module =>
      if x / div <? 0 then Raise ValueError else
      match find_values (x / div) (x mod div) div good_bytes with
      | Some values => Ok (carry, values)
      | None =>
          match retries with
          | O => Raise DivisionFailed
          | S retries' =>
              check_div_from retries' g (x + 256) div good_bytes (carry + 1)
          end
      end
  end.
Proof. destruct retries; reflexivity. Qed.



(** ** The ascending search of encode_byte *)

Lemma encode_byte_loop_first (n : nat) :
  forall g div x good_bytes min_div carry d carry' values,
  div <= d < div + Z.of_nat n ->
  (forall d', div <= d' < d ->
     check_div g x d' good_bytes carry false = Raise DivisionFailed) ->
  check_div g x d good_bytes carry false = Ok (carry', values) ->
  encode_byte_loop n g div x good_bytes min_div carry =
  if negb (min_div =? 0) && (min_div <? d)
  then Raise (BiggerDivision d) else Ok (carry', values).
Proof.
  induction n as [|n IH]; intros g div x good_bytes min_div carry d carry' values
    Hd Hfail Hok; [lia|].
  cbn [encode_byte_loop].
  destruct (Z.eq_dec div d) as [->|Hne].
  - now rewrite Hok.
  - rewrite Hfail by lia.
    apply IH; [lia | intros d' Hd'; apply Hfail; lia | exact Hok].
Qed.

(** C6.  With a nonzero floor [min_div], let [d] be the first divisor of
    the search at which [check_div] succeeds.  If [d > min_div] the call
    raises [BiggerDivision(d)] and returns nothing; if [d == min_div] it
    returns the carry and the values of [check_div]. *)
Theorem encode_byte_bigger_division (g : mod_binding) (x : Z)
    (good_bytes : list Z) (min_div max_div carry d carry' : Z)
    (values : list Z) :
  min_div <> 0 ->
  min_div <= d < Z.land max_div 0xFFFFFFFF ->
  (forall d', min_div <= d' < d ->
     check_div g x d' good_bytes carry false = Raise DivisionFailed) ->
  check_div g x d good_bytes carry false = Ok (carry', values) ->
  (min_div < d ->
     encode_byte g x good_bytes min_div max_div carry = Raise (BiggerDivision d)) /\
  (d = min_div ->
     encode_byte g x good_bytes min_div max_div carry = Ok (carry', values)).
Proof.
  intros Hmin Hd Hfail Hok; unfold encode_byte.
  replace (min_div =? 0) with false by lia.
  rewrite (encode_byte_loop_first _ g min_div x good_bytes min_div carry d
             carry' values) by (try lia; assumption).
  replace (min_div =? 0) with false by lia; cbn [negb andb].
  split; intros H.
  - now replace (min_div <? d) with true by lia.
  - now replace (min_div <? d) with false by lia.
Qed.

Lemma encode_byte_bigger_division_witness :
  encode_byte mod_module 255 [0x40; 0x33] 4 10 1 = Raise (BiggerDivision 5) /\
  encode_byte mod_module 255 [0x40; 0x33] 5 10 1 = Ok (1, [51; 51; 51; 51; 51]).
Proof.
  split.
  - apply (encode_byte_bigger_division mod_module 255 [0x40; 0x33] 4 10 1 5 1
             [51; 51; 51; 51; 51]); try reflexivity; try lia.
    + vm_compute; split; [discriminate | reflexivity].
    + intros d' Hd'; assert (d' = 4) as -> by lia; reflexivity.
  - apply (encode_byte_bigger_division mod_module 255 [0x40; 0x33] 5 10 1 5 1
             [51; 51; 51; 51; 51]); try reflexivity; try lia.
    vm_compute; split; [discriminate | reflexivity].
Defined.

(** ** The fuel of the restart loop *)

Lemma encode_chunk_loop_fuel (fuel : nat) :
  forall g X good_bytes max_div st r k,
  encode_chunk_loop fuel g X good_bytes max_div st = Some r ->
  encode_chunk_loop (fuel + k) g X good_bytes max_div st = Some r.
Proof.
  induction fuel as [|fuel IH]; intros g X good_bytes max_div st r k H;
    [discriminate|].
  cbn [encode_chunk_loop Nat.add] in *.
  destruct (encode_bytes g (p32 X) good_bytes max_div st);
    [exact H | now apply IH | exact H].
Qed.

(** The result of a run does not depend on the number of turns the
    restart loop was allowed, once that number is enough. *)
Lemma encode_chunk_fuel_independent (fuel1 fuel2 : nat) (g : mod_binding)
    (c : Z) (G : list Z) (i m : Z) (r1 r2 : result (list Z)) :
  encode_chunk fuel1 g c G i m = Some r1 ->
  encode_chunk fuel2 g c G i m = Some r2 ->
  r1 = r2.
Proof.
  unfold encode_chunk; intros H1 H2.
  apply encode_chunk_loop_fuel with (k := fuel2) in H1.
  apply encode_chunk_loop_fuel with (k := fuel1) in H2.
  rewrite Nat.add_comm in H2; congruence.
Qed.

(** ** What check_div returns *)

Lemma sum_map_add (v : Z) (l : list Z) :
  sum (map (fun offset => v + offset) l) = v * Z.of_nat (length l) + sum l.
Proof.
  induction l as [|a l IH]; [cbn; lia|].
  change (sum (map (fun offset => v + offset) (a :: l)))
    with (v + a + sum (map (fun offset => v + offset) l)).
  change (sum (a :: l)) with (a + sum l).
  change (length (a :: l)) with (S (length l)).
  rewrite IH, Nat2Z.inj_succ; lia.
Qed.

Lemma find_values_values (x div : Z) (good_bytes values : list Z) :
  find_values (x / div) (x mod div) div good_bytes = Some values ->
  length values = Z.to_nat div /\
  Forall (fun b => In b good_bytes) values /\
  sum values = x.
Proof.
  intros H; apply find_values_some in H.
  destruct H as (Hv & offset_list & Hlen & Hall & Hsum & ->).
  split; [|split].
  - rewrite length_app, length_map, repeat_length; lia.
  - apply Forall_app; split.
    + apply Forall_map; eapply Forall_impl; [|exact Hall].
      intros o Ho; apply in_map_iff in Ho; destruct Ho as (c & <- & Hc).
      now replace (x / div + (c - x / div)) with c by lia.
    + apply Forall_forall; intros b Hb; apply repeat_spec in Hb; now subst.
  - rewrite sum_app, sum_map_add, sum_repeat, Hsum, Z2Nat.id by lia.
    transitivity (div * (x / div) + x mod div); [ring|].
    symmetry; apply Z.div_mod; lia.
Qed.

(** A successful [check_div] returns [div] good bytes whose sum is [x] plus
    256 for each unit added to the carry. *)
Lemma check_div_from_ok (retries : nat) :
  forall g x div good_bytes carry carry' values,
  check_div_from retries g x div good_bytes carry = Ok (carry', values) ->
  length values = Z.to_nat div /\
  Forall (fun b => In b good_bytes) values /\
  sum values = x + 256 * (carry' - carry) /\
  carry <= carry' <= carry + Z.of_nat retries.
Proof.
  induction retries as [|retries IH];
    intros g x div good_bytes carry carry' values H;
    rewrite check_div_from_eq in H;
    destruct (div =? 0); try discriminate;
    destruct (256 <=? x / div); try discriminate;
    destruct g; try discriminate;
    destruct (x / div <? 0); try discriminate;
    destruct (find_values _ _ _ _) as [vs|] eqn:Hf; try discriminate.
  - injection H as <- <-; apply find_values_values in Hf.
    destruct Hf as (? & ? & ?); repeat split; trivial; lia.
  - injection H as <- <-; apply find_values_values in Hf.
    destruct Hf as (? & ? & ?); repeat split; trivial; lia.
  - apply IH in H; destruct H as (? & ? & ? & ?); repeat split; trivial; lia.
Qed.

(** The exceptions of [check_div] on a byte target and a positive
    divisor. *)
Lemma check_div_from_raise (retries : nat) :
  forall g x div good_bytes carry e,
  0 <= x -> 1 <= div ->
  check_div_from retries g x div good_bytes carry = Raise e ->
  e = DivisionFailed \/ (g = mod_unbound /\ e = NameError).
Proof.
  induction retries as [|retries IH]; intros g x div good_bytes carry e Hx Hd H;
    rewrite check_div_from_eq in H;
    (replace (div =? 0) with false in H by lia);
    (replace (x / div <? 0) with false in H
       by (symmetry; apply Z.ltb_ge, Z.div_pos; lia));
    destruct (256 <=? x / div); try (left; congruence);
    destruct g; try (right; split; congruence);
    destruct (find_values _ _ _ _); try discriminate.
  - left; congruence.
  - apply IH in H; [exact H | lia | lia].
Qed.

(** ** What encode_byte returns *)

Lemma encode_byte_loop_post (n : nat) :
  forall g div x good_bytes min_div carry,
  0 <= x -> 1 <= div -> min_div = 0 \/ min_div <= div ->
  encode_byte_post g x good_bytes min_div (div + Z.of_nat n) carry
    (encode_byte_loop n g div x good_bytes min_div carry).
Proof.
  induction n as [|n IH]; intros g div x good_bytes min_div carry Hx Hd Hmin.
  - now left.
  - cbn [encode_byte_loop].
    destruct (check_div g x div good_bytes carry false) as [[carry' values]|e] eqn:H.
    + apply check_div_from_ok in H; destruct H as (Hlen & Hall & Hsum & Hc).
      destruct (negb (min_div =? 0) && (min_div <? div)) eqn:Hb; cbn.
      * apply andb_true_iff in Hb; destruct Hb as [Hb1 Hb2].
        apply negb_true_iff in Hb1; lia.
      * exists div; repeat split; trivial; lia.
    + apply check_div_from_raise in H; [|lia|lia].
      destruct H as [->|[-> ->]]; [|now right].
      specialize (IH g (div + 1) x good_bytes min_div carry Hx
                    ltac:(lia) ltac:(lia)).
      replace (div + Z.of_nat (S n)) with (div + 1 + Z.of_nat n) by lia.
      exact IH.
Qed.

Lemma encode_byte_post_stop (g : mod_binding) (x : Z) (good_bytes : list Z)
    (min_div stop stop' carry : Z) (r : result (Z * list Z)) :
  stop <= stop' ->
  encode_byte_post g x good_bytes min_div stop carry r ->
  encode_byte_post g x good_bytes min_div stop' carry r.
Proof.
  intros Hs; destruct r as [[carry' values]|e]; [trivial|].
  destruct e; cbn; trivial; lia.
Qed.

Lemma encode_byte_spec (g : mod_binding) (x : Z) (good_bytes : list Z)
    (min_div max_div carry : Z) :
  0 <= x -> 0 <= min_div ->
  encode_byte_post g x good_bytes min_div (Z.land max_div 0xFFFFFFFF) carry
    (encode_byte g x good_bytes min_div max_div carry).
Proof.
  intros Hx Hmin; unfold encode_byte.
  set (start_div := if min_div =? 0 then 1 else min_div).
  set (stop := Z.land max_div 0xFFFFFFFF).
  assert (Hstart : 1 <= start_div)
    by (unfold start_div; destruct (Z.eqb_spec min_div 0); lia).
  assert (Hfloor : min_div = 0 \/ min_div <= start_div)
    by (unfold start_div; destruct (Z.eqb_spec min_div 0); lia).
  destruct (Z_le_gt_dec stop start_div) as [Hle|Hgt].
  - replace (Z.to_nat (stop - start_div)) with 0%nat by lia; now left.
  - eapply encode_byte_post_stop;
      [|apply encode_byte_loop_post; [exact Hx | exact Hstart | exact Hfloor]].
    lia.
Qed.

(** ** The encoding matrix *)

Lemma append_values_ok (P P' : list Z -> Prop) (Q : Z -> Prop) :
  (forall row v, P row -> Q v -> P' (row ++ [v])) ->
  forall encodings values,
  length encodings = length values ->
  Forall P encodings -> Forall Q values ->
  exists encodings',
    append_values encodings values = Ok encodings' /\
    length encodings' = length encodings /\
    Forall P' encodings'.
Proof.
  intros HPQ encodings; induction encodings as [|row rows IH];
    intros [|v values] Hlen HP HQ; try discriminate.
  - exists []; repeat split; constructor.
  - inversion HP as [|? ? Hrow Hrows]; inversion HQ as [|? ? Hv Hvs]; subst.
    destruct (IH values) as (rows' & E & Hl & Hr); [simpl in Hlen; lia|trivial..].
    exists ((row ++ [v]) :: rows'); cbn [append_values]; rewrite E; cbn.
    repeat split; [lia|]; constructor; auto.
Qed.

Lemma p32_u32 (b0 b1 b2 b3 : Z) :
  0 <= b0 < 256 -> 0 <= b1 < 256 -> 0 <= b2 < 256 -> 0 <= b3 < 256 ->
  p32 (b0 + b1 * 2 ^ 8 + b2 * 2 ^ 16 + b3 * 2 ^ 24) = [b0; b1; b2; b3].
Proof.
  intros H0 H1 H2 H3; unfold p32.
  change 255 with (Z.ones 8).
  rewrite !Z.land_ones, !Z.shiftr_div_pow2 by lia.
  repeat f_equal; Z.div_mod_to_equations; lia.
Qed.

Lemma u32_ok (good_bytes row : list Z) :
  is_bytes good_bytes ->
  length row = 4%nat -> Forall (fun b => In b good_bytes) row ->
  exists e, u32 row = Ok e /\ p32 e = row.
Proof.
  intros HG Hlen Hrow.
  assert (Hb : Forall (fun b => 0 <= b < 256) row).
  { eapply Forall_impl; [|exact Hrow].
    intros b Hin; exact (proj1 (Forall_forall _ _) HG b Hin). }
  destruct row as [|b0 [|b1 [|b2 [|b3 [|]]]]]; try discriminate.
  inversion Hb as [|? ? Hr0 Hb1]; inversion Hb1 as [|? ? Hr1 Hb2];
    inversion Hb2 as [|? ? Hr2 Hb3]; inversion Hb3 as [|? ? Hr3 _]; subst.
  eexists; split; [|apply p32_u32; assumption].
  unfold u32, forallb, is_byte.
  replace (0 <=? b0) with true by lia; replace (b0 <? 256) with true by lia.
  replace (0 <=? b1) with true by lia; replace (b1 <? 256) with true by lia.
  replace (0 <=? b2) with true by lia; replace (b2 <? 256) with true by lia.
  replace (0 <=? b3) with true by lia; replace (b3 <? 256) with true by lia.
  reflexivity.
Qed.

Lemma map_result_u32_ok (good_bytes : list Z) (encodings : list (list Z)) :
  is_bytes good_bytes ->
  Forall (fun row => length row = 4%nat /\ Forall (fun b => In b good_bytes) row)
         encodings ->
  exists E, map_result u32 encodings = Ok E /\ map p32 E = encodings.
Proof.
  intros HG; induction 1 as [|row rows [Hlen Hrow] _ (E & HE & Hp)].
  - now exists [].
  - destruct (u32_ok good_bytes row HG Hlen Hrow) as (e & He & Hpe).
    exists (e :: E); cbn [map_result map]; rewrite He, HE; cbn.
    split; congruence.
Qed.

(** ** One pass over the four bytes *)

Lemma land_byte_nonneg (a : Z) : 0 <= Z.land a 0xFF.
Proof. rewrite land_mask8; apply Z.mod_pos_bound; lia. Qed.

Lemma empty_matrix_inv (good_bytes : list Z) (d : Z) :
  length (empty_matrix d) = Z.to_nat d /\
  Forall (fun row => length row = 0%nat /\ Forall (fun b => In b good_bytes) row)
         (empty_matrix d).
Proof.
  unfold empty_matrix; split; [apply repeat_length|].
  apply Forall_forall; intros row Hrow; apply repeat_spec in Hrow; subst.
  split; [reflexivity | constructor].
Qed.

Lemma row_append (good_bytes : list Z) (k : nat) (row : list Z) (v : Z) :
  length row = k /\ Forall (fun b => In b good_bytes) row ->
  In v good_bytes ->
  length (row ++ [v]) = S k /\ Forall (fun b => In b good_bytes) (row ++ [v]).
Proof.
  intros [Hlen Hrow] Hv; split.
  - rewrite length_app; simpl; lia.
  - apply Forall_app; split; [exact Hrow | now constructor].
Qed.

Lemma encode_bytes_spec (g : mod_binding) (good_bytes : list Z) (max_div : Z) :
  is_bytes good_bytes ->
  forall xs st k,
  matrix_inv good_bytes k st -> (k + length xs = 4)%nat ->
  pass_post g good_bytes (Z.land max_div 0xFFFFFFFF) st
    (encode_bytes g xs good_bytes max_div st).
Proof.
  intros HG xs; induction xs as [|x0 xs IH]; intros st k Hinv Hk.
  - cbn [encode_bytes]; destruct Hinv as [[_ ->]|(_ & _ & Hrows)];
      [discriminate|].
    replace k with 4%nat in Hrows by (simpl in Hk; lia).
    destruct (map_result_u32_ok good_bytes _ HG Hrows) as (E & -> & Hp).
    cbn; rewrite <- Hp in Hrows; apply Forall_map in Hrows.
    eapply Forall_impl; [|exact Hrows]; now intros e [_ He].
  - cbn [encode_bytes].
    assert (Hmin : 0 <= st_div st) by (destruct Hinv as [[-> _]|[? _]]; lia).
    pose proof (encode_byte_spec g (Z.land (x0 - st_carry st) 0xFF) good_bytes
                  (st_div st) max_div (if x0 <? st_carry st then 1 else 0)
                  (land_byte_nonneg _) Hmin) as Hpost.
    destruct (encode_byte _ _ _ _ _ _) as [[carry' values]|e].
    + destruct Hpost as (d & Hd & Hfloor & Hlen & Hall & _).
      set (div' := if st_div st =? 0 then Z.of_nat (length values) else st_div st).
      set (encs := if st_div st =? 0 then empty_matrix div' else st_encodings st).
      assert (Hdiv' : div' = d /\ st_div st <= div').
      { unfold div'; destruct (Z.eqb_spec (st_div st) 0) as [E|E]; lia. }
      assert (Hencs : length encs = length values /\
                Forall (fun row => length row = k /\
                          Forall (fun b => In b good_bytes) row) encs).
      { unfold encs; destruct (Z.eqb_spec (st_div st) 0) as [E|E].
        - destruct Hinv as [[_ ->]|[? _]]; [|lia].
          destruct (empty_matrix_inv good_bytes div') as [Hl Hr].
          split; [lia | exact Hr].
        - destruct Hinv as [[? _]|(_ & Hl & Hr)]; [lia|].
          split; [rewrite Hl, Hlen, Hfloor by exact E; reflexivity | exact Hr]. }
      destruct Hencs as [Hl Hr].
      destruct (append_values_ok
                  (fun row => length row = k /\
                     Forall (fun b => In b good_bytes) row)
                  (fun row => length row = S k /\
                     Forall (fun b => In b good_bytes) row)
                  (fun b => In b good_bytes)
                  (row_append good_bytes k) encs values
                  Hl Hr Hall) as (encs' & Happ & Hl' & Hr').
      fold div' encs; rewrite Happ.
      specialize (IH (mkState div' carry' encs') (S k)).
      assert (Hpass : pass_post g good_bytes (Z.land max_div 0xFFFFFFFF)
                        (mkState div' carry' encs')
                        (encode_bytes g xs good_bytes max_div
                           (mkState div' carry' encs'))).
      { apply IH; [|simpl in Hk |- *; lia].
        right; cbn [st_div st_encodings]; repeat split; [lia | lia | exact Hr']. }
      destruct (encode_bytes g xs good_bytes max_div _); cbn in Hpass |- *;
        [exact Hpass | lia | exact Hpass].
    + destruct e; cbn in Hpost |- *; try exact Hpost; lia.
Qed.

(** ** The restart loop *)

Lemma p32_length (X : Z) : length (p32 X) = 4%nat.
Proof. reflexivity. Qed.

Lemma initial_state_inv (good_bytes : list Z) :
  matrix_inv good_bytes 0 initial_state.
Proof. now left. Qed.

Lemma restart_inv (good_bytes : list Z) (d : Z) (st : state) :
  1 <= d -> matrix_inv good_bytes 0 (restart d st).
Proof.
  intros Hd; right; cbn [restart st_div st_encodings].
  destruct (empty_matrix_inv good_bytes d) as [Hl Hr]; now repeat split.
Qed.

Lemma matrix_inv_div (good_bytes : list Z) (k : nat) (st : state) :
  matrix_inv good_bytes k st -> 0 <= st_div st.
Proof. intros [[-> _]|[? _]]; lia. Qed.

Lemma land_mask32_le (m : Z) : 0 <= m -> 0 <= Z.land m 0xFFFFFFFF <= m.
Proof.
  intros Hm; rewrite land_mask32; split.
  - apply Z.mod_pos_bound; lia.
  - apply Z.mod_le; lia.
Qed.

Lemma encode_chunk_loop_good_bytes (g : mod_binding) (X : Z)
    (good_bytes : list Z) (max_div : Z) (E : list Z) :
  is_bytes good_bytes ->
  forall fuel st,
  matrix_inv good_bytes 0 st ->
  encode_chunk_loop fuel g X good_bytes max_div st = Some (Ok E) ->
  Forall (fun e => Forall (fun b => In b good_bytes) (p32 e)) E.
Proof.
  intros HG fuel; induction fuel as [|fuel IH]; intros st Hinv H;
    [discriminate|].
  cbn [encode_chunk_loop] in H.
  pose proof (encode_bytes_spec g good_bytes max_div HG (p32 X) st 0 Hinv
                (p32_length X)) as Hpost.
  destruct (encode_bytes g (p32 X) good_bytes max_div st) as [E'|d st'|e];
    cbn in Hpost.
  - now injection H as <-.
  - apply IH in H; [exact H|].
    apply restart_inv; apply matrix_inv_div in Hinv; lia.
  - discriminate.
Qed.

(** C2.  Every byte of every component of an encoding that [encode_chunk]
    returns is an element of [good_bytes]. *)
Theorem encode_chunk_good_bytes (fuel : nat) (g : mod_binding) (c : Z)
    (G : list Z) (i m : Z) (E : list Z) :
  is_bytes G ->
  encode_chunk fuel g c G i m = Some (Ok E) ->
  Forall (fun e => Forall (fun b => In b G) (p32 e)) E.
Proof.
  intros HG H; unfold encode_chunk in H.
  eapply encode_chunk_loop_good_bytes;
    [exact HG | apply initial_state_inv | exact H].
Qed.

Lemma encode_chunk_good_bytes_witness :
  Forall (fun e => Forall (fun b => In b [0x44; 0x54; 0x55; 0x65; 0x66; 0x76; 0x77])
                          (p32 e))
         [0x77665544; 0x76655444].
Proof.
  apply (encode_chunk_good_bytes 1 mod_module 0x12345678
           [0x44; 0x54; 0x55; 0x65; 0x66; 0x76; 0x77] 0 10).
  - repeat constructor; lia.
  - vm_compute; reflexivity.
Defined.

Lemma encode_chunk_loop_terminates (g : mod_binding) (X : Z)
    (good_bytes : list Z) (max_div : Z) :
  is_bytes good_bytes ->
  forall fuel st,
  matrix_inv good_bytes 0 st ->
  (1 <= fuel)%nat ->
  Z.land max_div 0xFFFFFFFF - st_div st <= Z.of_nat fuel ->
  exists r,
    encode_chunk_loop fuel g X good_bytes max_div st = Some r /\
    ((exists E, r = Ok E) \/ r = Raise EncodingFailure \/
     (g = mod_unbound /\ r = Raise NameError)).
Proof.
  intros HG fuel; induction fuel as [|fuel IH]; intros st Hinv Hfuel Hm; [lia|].
  cbn [encode_chunk_loop].
  pose proof (encode_bytes_spec g good_bytes max_div HG (p32 X) st 0 Hinv
                (p32_length X)) as Hpost.
  destruct (encode_bytes g (p32 X) good_bytes max_div st) as [E|d st'|e];
    cbn in Hpost.
  - exists (Ok E); split; [reflexivity | left; now exists E].
  - apply IH; cbn [restart st_div].
    + apply restart_inv; apply matrix_inv_div in Hinv; lia.
    + lia.
    + lia.
  - exists (Raise e); split; [reflexivity | right].
    destruct Hpost as [->|[-> ->]]; [now left | now right].
Qed.

(** C8.  With a positive [max_div], [max_div] turns of the restart loop are
    enough for [encode_chunk] to finish, and it finishes by returning an
    encoding or by raising [EncodingFailure] ([NameError] when [mod] is
    unbound).  Each restart takes a divisor above the one its pass started
    with and below [max_div]. *)
Theorem encode_chunk_terminates (g : mod_binding) (c : Z) (G : list Z)
    (i m : Z) :
  is_bytes G -> 0 < m ->
  (exists r,
     encode_chunk (Z.to_nat m) g c G i m = Some r /\
     ((exists E, r = Ok E) \/ r = Raise EncodingFailure \/
      (g = mod_unbound /\ r = Raise NameError))) /\
  (forall X st d st',
     matrix_inv G 0 st ->
     encode_bytes g (p32 X) G m st = Caught d st' ->
     st_div st < st_div (restart d st') < m).
Proof.
  intros HG Hm; pose proof (land_mask32_le m ltac:(lia)) as Hmask; split.
  - unfold encode_chunk; apply encode_chunk_loop_terminates;
      [exact HG | apply initial_state_inv | lia |].
    cbn [initial_state st_div]; lia.
  - intros X st d st' Hinv H.
    pose proof (encode_bytes_spec g G m HG (p32 X) st 0 Hinv (p32_length X))
      as Hpost.
    rewrite H in Hpost; cbn in Hpost |- *; lia.
Qed.

Lemma encode_chunk_terminates_witness :
  (exists r,
     encode_chunk (Z.to_nat 10) mod_module 0 [0x40; 0x33] 0 10 = Some r /\
     ((exists E, r = Ok E) \/ r = Raise EncodingFailure \/
      (mod_module = mod_unbound /\ r = Raise NameError))) /\
  (forall X st d st',
     matrix_inv [0x40; 0x33] 0 st ->
     encode_bytes mod_module (p32 X) [0x40; 0x33] 10 st = Caught d st' ->
     st_div st < st_div (restart d st') < 10).
Proof.
  apply (encode_chunk_terminates mod_module 0 [0x40; 0x33] 0 10).
  - repeat constructor; lia.
  - lia.
Defined.

(** ** The sum of the components

    The round trip of a single pass: the components a pass returns sum to
    the complement minus the carry the pass started with, so they decode
    to the chunk plus that carry. *)

Lemma le_value_app (row : list Z) (v : Z) :
  le_value (row ++ [v]) = le_value row + 256 ^ Z.of_nat (length row) * v.
Proof.
  induction row as [|b row IH].
  - cbn [app le_value length]; change (Z.of_nat 0) with 0.
    rewrite Z.pow_0_r; ring.
  - cbn [app le_value length].
    rewrite IH, Nat2Z.inj_succ, Z.pow_succ_r by lia; ring.
Qed.

Lemma matrix_sum_cons (row : list Z) (rows : list (list Z)) :
  matrix_sum (row :: rows) = le_value row + matrix_sum rows.
Proof. reflexivity. Qed.

Lemma sum_cons (v : Z) (l : list Z) : sum (v :: l) = v + sum l.
Proof. reflexivity. Qed.

Lemma append_values_sum (k : nat) :
  forall encodings values encodings',
  append_values encodings values = Ok encodings' ->
  Forall (fun row => length row = k) encodings ->
  matrix_sum encodings'
    = matrix_sum encodings + 256 ^ Z.of_nat k * sum values.
Proof.
  intros encodings; induction encodings as [|row rows IH];
    intros [|v values] encodings' H Hk; cbn [append_values] in H;
    try discriminate.
  - injection H as <-; cbn; lia.
  - injection H as <-; cbn [sum fold_right]; lia.
  - inversion Hk as [|? ? Hrow Hrows]; subst.
    destruct (append_values rows values) as [rows'|] eqn:E; [|discriminate].
    cbn in H; injection H as <-.
    rewrite !matrix_sum_cons, le_value_app, sum_cons, (IH values rows' E Hrows).
    ring.
Qed.

Lemma matrix_sum_empty_rows (encodings : list (list Z)) :
  Forall (fun row => length row = 0%nat) encodings ->
  matrix_sum encodings = 0.
Proof.
  induction 1 as [|row rows Hrow _ IH]; [reflexivity|].
  rewrite matrix_sum_cons, IH; destruct row; [reflexivity | discriminate].
Qed.

Lemma u32_value (row : list Z) (e : Z) : u32 row = Ok e -> e = le_value row.
Proof.
  unfold u32; destruct (forallb is_byte row); [|discriminate].
  destruct row as [|b0 [|b1 [|b2 [|b3 [|]]]]]; try discriminate.
  intros H; injection H as <-; cbn [le_value]; lia.
Qed.

Lemma map_result_u32_sum (encodings : list (list Z)) :
  forall E, map_result u32 encodings = Ok E ->
  sum E = matrix_sum encodings /\ length E = length encodings.
Proof.
  induction encodings as [|row rows IH]; intros E H; cbn [map_result] in H.
  - injection H as <-; now split.
  - destruct (u32 row) as [e|] eqn:He; [|discriminate]; cbn in H.
    destruct (map_result u32 rows) as [E'|]; [|discriminate]; cbn in H.
    injection H as <-; destruct (IH E' eq_refl) as [Hs Hl].
    apply u32_value in He; subst e.
    rewrite matrix_sum_cons, sum_cons, Hs; split; [reflexivity | simpl; lia].
Qed.

(** Lines 157-163 on a state that satisfies the invariant. *)
Lemma append_step (good_bytes : list Z) (k : nat) (st : state)
    (values : list Z) (d : Z) :
  matrix_inv good_bytes k st ->
  1 <= d -> (st_div st <> 0 -> d = st_div st) ->
  length values = Z.to_nat d ->
  Forall (fun b => In b good_bytes) values ->
  let div' := if st_div st =? 0 then Z.of_nat (length values) else st_div st in
  let encs := if st_div st =? 0 then empty_matrix div' else st_encodings st in
  exists encs',
    append_values encs values = Ok encs' /\
    (forall carry', matrix_inv good_bytes (S k) (mkState div' carry' encs')) /\
    div' = d /\ st_div st <= div' /\
    matrix_sum encs' = matrix_sum_of st + 256 ^ Z.of_nat k * sum values.
Proof.
  intros Hinv Hd Hfloor Hlen Hall div' encs.
  assert (Hdiv' : div' = d /\ st_div st <= div').
  { pose proof (matrix_inv_div _ _ _ Hinv).
    unfold div'; destruct (Z.eqb_spec (st_div st) 0) as [E|E]; lia. }
  assert (Hencs : length encs = length values /\
            Forall (fun row => length row = k /\
                      Forall (fun b => In b good_bytes) row) encs /\
            matrix_sum encs = matrix_sum_of st).
  { unfold encs, matrix_sum_of; destruct (Z.eqb_spec (st_div st) 0) as [E|E].
    - destruct Hinv as [[_ ->]|[? _]]; [|lia].
      destruct (empty_matrix_inv good_bytes div') as [Hl Hr].
      split; [lia | split; [exact Hr|]].
      apply matrix_sum_empty_rows; eapply Forall_impl; [|exact Hr].
      now intros row [? _].
    - destruct Hinv as [[? _]|(_ & Hl & Hr)]; [lia|].
      split; [rewrite Hl, Hlen, Hfloor by exact E; reflexivity|].
      split; [exact Hr | reflexivity]. }
  destruct Hencs as (Hl & Hr & Hs).
  destruct (append_values_ok
              (fun row => length row = k /\
                 Forall (fun b => In b good_bytes) row)
              (fun row => length row = S k /\
                 Forall (fun b => In b good_bytes) row)
              (fun b => In b good_bytes)
              (row_append good_bytes k) encs values
              Hl Hr Hall) as (encs' & Happ & Hl' & Hr').
  exists encs'; split; [exact Happ|]; split; [|split; [|split]]; try lia.
  - intros carry'; right; cbn [st_div st_encodings].
    repeat split; [lia | lia | exact Hr'].
  - rewrite <- Hs; apply (append_values_sum k _ _ _ Happ).
    eapply Forall_impl; [|exact Hr]; now intros row [? _].
Qed.

Lemma land_byte_borrow (x0 carry : Z) :
  0 <= x0 < 256 -> 0 <= carry <= 2 ->
  Z.land (x0 - carry) 0xFF
    = x0 - carry + 256 * (if x0 <? carry then 1 else 0).
Proof.
  intros Hx Hc; rewrite land_mask8; change (2 ^ 8) with 256.
  destruct (Z.ltb_spec x0 carry); Z.div_mod_to_equations; lia.
Qed.

Lemma encode_bytes_sum (g : mod_binding) (good_bytes : list Z) (max_div : Z) :
  forall xs st k E,
  matrix_inv good_bytes k st -> (k + length xs = 4)%nat ->
  0 <= st_carry st <= 2 ->
  Forall (fun b => 0 <= b < 256) xs ->
  encode_bytes g xs good_bytes max_div st = Returned E ->
  E <> [] /\
  exists carry_out,
    sum E = matrix_sum_of st
            + 256 ^ Z.of_nat k * (le_value xs - st_carry st)
            + 256 ^ Z.of_nat (k + length xs) * carry_out.
Proof.
  intros xs; induction xs as [|x0 xs IH]; intros st k E Hinv Hk Hc Hxs H.
  - cbn [encode_bytes] in H.
    destruct (map_result u32 (st_encodings st)) as [E'|] eqn:HE;
      [|discriminate].
    injection H as ->; apply map_result_u32_sum in HE; destruct HE as [Hs Hl].
    destruct Hinv as [[_ ->]|(Hd & Hlen & _)]; [discriminate|].
    split; [intros ->; cbn in Hl; lia|].
    exists (st_carry st); cbn [le_value length]; rewrite Nat.add_0_r, Hs.
    unfold matrix_sum_of; replace (st_div st =? 0) with false by lia; ring.
  - cbn [encode_bytes] in H.
    inversion Hxs as [|? ? Hx0 Hxs']; subst.
    pose proof (encode_byte_spec g (Z.land (x0 - st_carry st) 0xFF) good_bytes
                  (st_div st) max_div (if x0 <? st_carry st then 1 else 0)
                  (land_byte_nonneg _) (matrix_inv_div _ _ _ Hinv)) as Hpost.
    destruct (encode_byte _ _ _ _ _ _) as [[carry' values]|e];
      [|destruct e; discriminate].
    destruct Hpost as (d & Hd & Hfloor & Hlen & Hall & Hsum & Hcarry).
    destruct (append_step good_bytes k st values d Hinv Hd Hfloor Hlen Hall)
      as (encs' & Happ & Hinv' & Hdiv' & _ & Hms).
    rewrite Happ in H.
    apply (IH _ (S k)) in H;
      [| apply Hinv' | simpl in Hk |- *; lia
       | cbn [st_carry]; destruct (x0 <? st_carry st); lia | exact Hxs'].
    destruct H as [HE (carry_out & Hsum')]; split; [exact HE|].
    exists carry_out; rewrite Hsum'.
    unfold matrix_sum_of at 1; cbn [st_div st_carry st_encodings].
    replace (_ =? 0) with false by lia.
    rewrite Hms, Hsum, (land_byte_borrow x0 (st_carry st) Hx0 Hc).
    cbn [le_value length].
    replace (Z.of_nat (k + S (length xs))) with (Z.of_nat (S k + length xs))
      by lia.
    rewrite (Nat2Z.inj_succ k), Z.pow_succ_r by lia; ring.
Qed.

Lemma p32_bytes (X : Z) : Forall (fun b => 0 <= b < 256) (p32 X).
Proof.
  unfold p32; change 255 with (Z.ones 8).
  repeat constructor; rewrite Z.land_ones by lia;
    apply (Z.mod_pos_bound _ (2 ^ 8)); lia.
Qed.

Lemma p32_value (X : Z) : 0 <= X < 2 ^ 32 -> le_value (p32 X) = X.
Proof.
  intros HX; unfold p32; cbn [le_value]; change 255 with (Z.ones 8).
  rewrite !Z.land_ones, !Z.shiftr_div_pow2 by lia.
  Z.div_mod_to_equations; lia.
Qed.

Lemma encode_bytes_caught_carry (g : mod_binding) (good_bytes : list Z)
    (max_div d : Z) (st' : state) :
  forall xs st,
  encode_bytes g xs good_bytes max_div st = Caught d st' ->
  0 <= st_carry st' <= 1.
Proof.
  intros xs; induction xs as [|x0 xs IH]; intros st H; cbn [encode_bytes] in H.
  - destruct (map_result u32 _); discriminate.
  - destruct (encode_byte _ _ _ _ _ _) as [[carry' values]|e].
    + destruct (append_values _ _); [now apply IH in H | discriminate].
    + destruct e; try discriminate.
      injection H as _ <-; cbn [st_carry]; destruct (x0 <? st_carry st); lia.
Qed.

(** The components that a pass returns decode to the chunk plus the carry
    the pass started with. *)
Lemma pass_decode (g : mod_binding) (c : Z) (G : list Z) (i m : Z)
    (st : state) (E : list Z) :
  0 <= c < 2 ^ 32 ->
  matrix_inv G 0 st -> 0 <= st_carry st <= 2 ->
  encode_bytes g (p32 (Z.land (i - c) 0xFFFFFFFF)) G m st = Returned E ->
  decode E i = (c + st_carry st) mod 2 ^ 32.
Proof.
  intros Hc Hinv Hcarry H.
  apply (encode_bytes_sum g G m _ st 0) in H;
    [| exact Hinv | reflexivity | exact Hcarry | apply p32_bytes].
  destruct H as [HE (carry_out & Hsum)].
  rewrite decode_closed_form by now left.
  assert (Hms : matrix_sum_of st = 0).
  { unfold matrix_sum_of; destruct (Z.eqb_spec (st_div st) 0); [reflexivity|].
    destruct Hinv as [[? _]|(_ & _ & Hr)]; [lia|].
    apply matrix_sum_empty_rows; eapply Forall_impl; [|exact Hr].
    now intros row [? _]. }
  rewrite Hsum, Hms, p32_value
    by (rewrite land_mask32; apply Z.mod_pos_bound; lia).
  rewrite land_mask32; change (Z.of_nat 0) with 0.
  change (Z.of_nat (0 + length (p32 ((i - c) mod 2 ^ 32)))) with 4.
  change (256 ^ 4) with (2 ^ 32); change (256 ^ 0) with 1.
  Z.div_mod_to_equations; lia.
Qed.

(** X7.  Round trip without the stale carry: an encoding returned by the first
    pass of [encode_chunk] decodes to the chunk. *)
Theorem round_trip_first_pass (g : mod_binding) (c : Z) (G : list Z)
    (i m : Z) (E : list Z) :
  0 <= c < 2 ^ 32 ->
  encode_chunk 1 g c G i m = Some (Ok E) ->
  decode E i = c.
Proof.
  intros Hc H; unfold encode_chunk in H; cbn [encode_chunk_loop] in H.
  destruct (encode_bytes _ _ _ _ _) as [E'|d st'|e] eqn:Hp; try discriminate.
  injection H as ->.
  apply pass_decode in Hp;
    [| exact Hc | apply initial_state_inv | cbn; lia].
  rewrite Hp; cbn [initial_state st_carry]; rewrite Z.add_0_r.
  apply Z.mod_small; exact Hc.
Qed.

Lemma encode_chunk_loop_decode (g : mod_binding) (c : Z) (G : list Z)
    (i m : Z) (E : list Z) :
  is_bytes G -> 0 <= c < 2 ^ 32 ->
  forall fuel st,
  matrix_inv G 0 st -> 0 <= st_carry st <= 1 ->
  encode_chunk_loop fuel g (Z.land (i - c) 0xFFFFFFFF) G m st = Some (Ok E) ->
  decode E i = c \/ decode E i = (c + 1) mod 2 ^ 32.
Proof.
  intros HG Hc fuel; induction fuel as [|fuel IH]; intros st Hinv Hcarry H;
    [discriminate|].
  cbn [encode_chunk_loop] in H.
  pose proof (encode_bytes_spec g G m HG _ st 0 Hinv
                (p32_length (Z.land (i - c) 0xFFFFFFFF))) as Hpost.
  destruct (encode_bytes _ _ _ _ _) as [E'|d st'|e] eqn:Hp; try discriminate.
  - injection H as ->.
    apply pass_decode in Hp; [| exact Hc | exact Hinv | lia].
    rewrite Hp; assert (st_carry st = 0 \/ st_carry st = 1) as [->| ->] by lia;
      [left; rewrite Z.add_0_r; apply Z.mod_small; exact Hc | now right].
  - apply IH in H; [exact H | |].
    + apply restart_inv; cbn in Hpost; apply matrix_inv_div in Hinv; lia.
    + cbn [restart st_carry]; eapply encode_bytes_caught_carry; exact Hp.
Qed.

(** X8.  What is left of the round trip after restarts: an encoding returned by
    [encode_chunk] decodes to the chunk, or to the chunk plus one when the
    last restart happened at a byte that was borrowing. *)
Theorem round_trip_up_to_carry (fuel : nat) (g : mod_binding) (c : Z)
    (G : list Z) (i m : Z) (E : list Z) :
  is_bytes G -> 0 <= c < 2 ^ 32 ->
  encode_chunk fuel g c G i m = Some (Ok E) ->
  decode E i = c \/ decode E i = (c + 1) mod 2 ^ 32.
Proof.
  intros HG Hc H; unfold encode_chunk in H.
  eapply encode_chunk_loop_decode;
    [exact HG | exact Hc | apply initial_state_inv | cbn; lia | exact H].
Qed.

(** ** The equal split for two components or more

    With [div >= 2] the offset search finds the equal split as the offset
    list [(0,)], so the dead branch of line 53 costs solutions at [div = 1]
    only. *)

Lemma combinations_with_replacement_1 (o : Z) (pool : list Z) :
  In o pool -> In [o] (combinations_with_replacement 1 pool).
Proof.
  induction pool as [|a pool IH]; intros H; [destruct H|].
  cbn [combinations_with_replacement map app].
  destruct H as [->|H]; [now left | right; now apply IH].
Qed.

(** X3.  When the target is a multiple of [div >= 2] and the quotient is
    a good byte, [check_div] returns [div] copies of the quotient and
    leaves the carry alone, with or without [recurse]. *)
Lemma check_div_equal_split_ge2 (x div : Z) (good_bytes : list Z) (carry : Z)
    (recurse : bool) :
  0 <= x -> 2 <= div ->
  x mod div = 0 -> x / div < 256 -> In (x / div) good_bytes ->
  check_div mod_module x div good_bytes carry recurse
    = Ok (carry, repeat (x / div) (Z.to_nat div)).
Proof.
  intros Hx Hd Hm Hv Hin; unfold check_div; rewrite check_div_from_eq.
  replace (div =? 0) with false by lia.
  replace (256 <=? x / div) with false by lia.
  replace (x / div <? 0) with false
    by (symmetry; apply Z.ltb_ge, Z.div_pos; lia).
  unfold find_values, offset_split.
  rewrite (proj2 (mem_In _ _) Hin), Hm.
  replace (Z.to_nat (div - 1)) with (S (Z.to_nat (div - 2))) by lia.
  cbn [split_loop]; change (Z.to_nat 1) with 1%nat.
  destruct (find _ _) as [offset_list|] eqn:Hf.
  - apply find_some in Hf; destruct Hf as [Hl Hs].
    apply combinations_with_replacement_In in Hl; destruct Hl as [Hlen _].
    destruct offset_list as [|o [|? ?]]; try discriminate.
    cbn [sum fold_right] in Hs; assert (o = 0) as -> by lia.
    replace (Z.to_nat div) with (S (Z.to_nat (div - 1))) by lia.
    cbn [map app repeat]; now rewrite Z.add_0_r.
  - assert (H0 : (sum [0] =? 0) = false); [|discriminate H0].
    apply (find_none _ _ Hf [0]).
    apply combinations_with_replacement_1, in_map_iff.
    exists (x / div); split; [lia | exact Hin].
Qed.

(** * Further properties of the search *)

(** ** check_div: what a success means *)

Lemma check_div_from_ok_div (retries : nat) :
  forall g x div good_bytes carry carry' values,
  check_div_from retries g x div good_bytes carry = Ok (carry', values) ->
  2 <= div.
Proof.
  induction retries as [|retries IH];
    intros g x div good_bytes carry carry' values H;
    rewrite check_div_from_eq in H;
    destruct (div =? 0); try discriminate;
    destruct (256 <=? x / div); try discriminate;
    destruct g; try discriminate;
    destruct (x / div <? 0); try discriminate;
    destruct (find_values _ _ _ _) as [vs|] eqn:Hf; try discriminate;
    try (apply find_values_some in Hf;
         destruct Hf as (_ & offset_list & Hlen & _); lia).
  now apply IH in H.
Qed.

(** X1.  A call of [check_div] that returns gives [div] values, [div >= 2], each
    of them in [good_bytes], whose sum is the target plus 256 for the carry
    it added; it adds a carry of one at most, and none when it was called
    with [recurse=True]. *)
Theorem check_div_sound (g : mod_binding) (x div : Z) (good_bytes : list Z)
    (carry : Z) (recurse : bool) (carry' : Z) (values : list Z) :
  check_div g x div good_bytes carry recurse = Ok (carry', values) ->
  2 <= div /\
  length values = Z.to_nat div /\
  Forall (fun b => In b good_bytes) values /\
  sum values = x + 256 * (carry' - carry) /\
  (carry' = carry \/ (recurse = false /\ carry' = carry + 1)).
Proof.
  unfold check_div; intros H.
  pose proof (check_div_from_ok_div _ _ _ _ _ _ _ _ H) as Hd.
  apply check_div_from_ok in H; destruct H as (Hlen & Hall & Hsum & Hc).
  repeat split; trivial.
  destruct recurse; cbn in Hc; [left; lia|].
  destruct (Z.eq_dec carry' carry); [now left | right; split; [reflexivity|lia]].
Qed.

Lemma check_div_sound_witness :
  2 <= 4 /\
  length [64; 64; 64; 64] = Z.to_nat 4 /\
  Forall (fun b => In b [0x40; 0x33]) [64; 64; 64; 64] /\
  sum [64; 64; 64; 64] = 0 + 256 * (1 - 0) /\
  (1 = 0 \/ (false = false /\ 1 = 0 + 1)).
Proof.
  apply (check_div_sound mod_module 0 4 [0x40; 0x33] 0 false 1 [64; 64; 64; 64]).
  reflexivity.
Defined.

(** [check_div] raises nothing that [encode_byte] would take for its own
    signals. *)
Lemma check_div_from_raises (retries : nat) :
  forall g x div good_bytes carry e,
  check_div_from retries g x div good_bytes carry = Raise e ->
  e = DivisionFailed \/ e = NameError \/ e = ZeroDivisionError \/ e = ValueError.
Proof.
  induction retries as [|retries IH]; intros g x div good_bytes carry e H;
    rewrite check_div_from_eq in H;
    destruct (div =? 0); try (injection H as <-; tauto);
    destruct (256 <=? x / div); try (injection H as <-; tauto);
    destruct g; try (injection H as <-; tauto);
    destruct (x / div <? 0); try (injection H as <-; tauto);
    destruct (find_values _ _ _ _); try discriminate;
    try (injection H as <-; tauto).
  now apply IH in H.
Qed.

(** ** encode_byte: the divisor it settles on *)

Lemma encode_byte_loop_ok (n : nat) :
  forall g div x good_bytes min_div carry carry' values,
  encode_byte_loop n g div x good_bytes min_div carry = Ok (carry', values) ->
  exists d,
    div <= d < div + Z.of_nat n /\
    check_div g x d good_bytes carry false = Ok (carry', values) /\
    (forall d', div <= d' < d ->
       check_div g x d' good_bytes carry false = Raise DivisionFailed) /\
    (min_div = 0 \/ d <= min_div).
Proof.
  induction n as [|n IH];
    intros g div x good_bytes min_div carry carry' values H; [discriminate|].
  cbn [encode_byte_loop] in H.
  destruct (check_div g x div good_bytes carry false) as [[c v]|e] eqn:Hc.
  - destruct (negb (min_div =? 0) && (min_div <? div)) eqn:Hb; [discriminate|].
    injection H as <- <-; exists div.
    split; [lia|]; split; [exact Hc|]; split; [intros d' Hd'; lia|].
    destruct (Z.eqb_spec min_div 0); [now left | right].
    cbn [negb andb] in Hb; lia.
  - destruct e; try discriminate.
    apply IH in H; destruct H as (d & Hd & Hok & Hfail & Hmin).
    exists d; split; [lia|]; split; [exact Hok|]; split; [|exact Hmin].
    intros d' Hd'; destruct (Z.eq_dec d' div) as [->|Hne];
      [exact Hc | apply Hfail; lia].
Qed.

Lemma encode_byte_stop (min_div max_div : Z) :
  (0 < Z.to_nat (Z.land max_div 0xFFFFFFFF - start_div_of min_div))%nat ->
  start_div_of min_div
    + Z.of_nat (Z.to_nat (Z.land max_div 0xFFFFFFFF - start_div_of min_div))
  = Z.land max_div 0xFFFFFFFF.
Proof. lia. Qed.

(** X4.  What [encode_byte] returns is what [check_div] returns for the first
    divisor of the range on which it does not fail, and that divisor is the
    floor when a floor is set. *)
Theorem encode_byte_minimal (g : mod_binding) (x : Z) (good_bytes : list Z)
    (min_div max_div carry carry' : Z) (values : list Z) :
  encode_byte g x good_bytes min_div max_div carry = Ok (carry', values) ->
  exists d,
    start_div_of min_div <= d < Z.land max_div 0xFFFFFFFF /\
    (min_div <> 0 -> d = min_div) /\
    check_div g x d good_bytes carry false = Ok (carry', values) /\
    forall d', start_div_of min_div <= d' < d ->
      check_div g x d' good_bytes carry false = Raise DivisionFailed.
Proof.
  unfold encode_byte; fold (start_div_of min_div); intros H.
  apply encode_byte_loop_ok in H; destruct H as (d & Hd & Hok & Hfail & Hmin).
  exists d; split; [|split; [|split; [exact Hok | exact Hfail]]].
  - rewrite <- (encode_byte_stop min_div max_div); lia.
  - intros Hne; unfold start_div_of in Hd.
    destruct (Z.eqb_spec min_div 0); lia.
Qed.

Lemma encode_byte_minimal_witness :
  exists d,
    start_div_of 0 <= d < Z.land 10 0xFFFFFFFF /\
    (0 <> 0 -> d = 0) /\
    check_div mod_module 0 d [0x40; 0x33] 0 false = Ok (1, [64; 64; 64; 64]) /\
    forall d', start_div_of 0 <= d' < d ->
      check_div mod_module 0 d' [0x40; 0x33] 0 false = Raise DivisionFailed.
Proof.
  apply (encode_byte_minimal mod_module 0 [0x40; 0x33] 0 10 0 1 [64; 64; 64; 64]).
  reflexivity.
Defined.

Lemma encode_byte_loop_failure (n : nat) :
  forall g div x good_bytes min_div carry,
  encode_byte_loop n g div x good_bytes min_div carry = Raise EncodingFailure <->
  (forall d, div <= d < div + Z.of_nat n ->
     check_div g x d good_bytes carry false = Raise DivisionFailed).
Proof.
  induction n as [|n IH]; intros g div x good_bytes min_div carry.
  - split; [intros _ d Hd; lia | reflexivity].
  - cbn [encode_byte_loop]; split.
    + intros H d Hd.
      destruct (check_div g x div good_bytes carry false) as [[c v]|e] eqn:Hc.
      * destruct (negb (min_div =? 0) && (min_div <? div)); discriminate.
      * assert (He : e = DivisionFailed).
        { apply check_div_from_raises in Hc.
          destruct e; try discriminate; try reflexivity;
            destruct Hc as [?|[?|[?|?]]]; discriminate. }
        subst e; destruct (Z.eq_dec d div) as [->|Hne]; [exact Hc|].
        apply (proj1 (IH g (div + 1) x good_bytes min_div carry) H); lia.
    + intros H; rewrite (H div) by lia.
      apply IH; intros d Hd; apply H; lia.
Qed.

(** X5.  [encode_byte] raises [EncodingFailure] exactly when [check_div] fails
    for every divisor from the start of the search up to, and without,
    [max_div & 0xFFFFFFFF]; in particular whenever that range is empty. *)
Theorem encode_byte_failure (g : mod_binding) (x : Z) (good_bytes : list Z)
    (min_div max_div carry : Z) :
  encode_byte g x good_bytes min_div max_div carry = Raise EncodingFailure <->
  (forall d, start_div_of min_div <= d < Z.land max_div 0xFFFFFFFF ->
     check_div g x d good_bytes carry false = Raise DivisionFailed).
Proof.
  unfold encode_byte; fold (start_div_of min_div).
  rewrite encode_byte_loop_failure; split; intros H d Hd; apply H; lia.
Qed.

Lemma encode_byte_loop_bigger (n : nat) :
  forall g div x good_bytes min_div carry d,
  encode_byte_loop n g div x good_bytes min_div carry = Raise (BiggerDivision d) ->
  min_div <> 0 /\ min_div < d /\ div <= d < div + Z.of_nat n /\
  (exists ok, check_div g x d good_bytes carry false = Ok ok) /\
  (forall d', div <= d' < d ->
     check_div g x d' good_bytes carry false = Raise DivisionFailed).
Proof.
  induction n as [|n IH]; intros g div x good_bytes min_div carry d H;
    [discriminate|].
  cbn [encode_byte_loop] in H.
  destruct (check_div g x div good_bytes carry false) as [[c v]|e] eqn:Hc.
  - destruct (negb (min_div =? 0) && (min_div <? div)) eqn:Hb; [|discriminate].
    injection H as <-.
    split; [lia|]; split; [lia|]; split; [lia|]; split;
      [now exists (c, v) | intros d' Hd'; lia].
  - assert (He : e = DivisionFailed).
    { apply check_div_from_raises in Hc.
      destruct e; try discriminate; try reflexivity;
        destruct Hc as [?|[?|[?|?]]]; discriminate. }
    subst e; apply IH in H; destruct H as (H1 & H2 & H3 & H4 & H5).
    split; [exact H1|]; split; [exact H2|]; split; [lia|]; split; [exact H4|].
    intros d' Hd'; destruct (Z.eq_dec d' div) as [->|Hne];
      [exact Hc | apply H5; lia].
Qed.

(** X6.  When [encode_byte] raises [BiggerDivision(d)], a floor was set, [d] is
    above the floor and below the ceiling, [check_div] succeeds for [d] and
    fails for every divisor from the floor up to [d].  With no floor
    ([min_div == 0]) the signal is never raised. *)
Theorem encode_byte_signal_first_divisor (g : mod_binding) (x : Z)
    (good_bytes : list Z) (min_div max_div carry d : Z) :
  encode_byte g x good_bytes min_div max_div carry = Raise (BiggerDivision d) ->
  min_div <> 0 /\ min_div < d < Z.land max_div 0xFFFFFFFF /\
  (exists ok, check_div g x d good_bytes carry false = Ok ok) /\
  (forall d', min_div <= d' < d ->
     check_div g x d' good_bytes carry false = Raise DivisionFailed).
Proof.
  unfold encode_byte; intros H.
  apply encode_byte_loop_bigger in H; destruct H as (H1 & H2 & H3 & H4 & H5).
  replace (min_div =? 0) with false in * by lia.
  split; [exact H1|]; split; [lia|]; split; [exact H4 | exact H5].
Qed.

Lemma encode_byte_signal_first_divisor_witness :
  4 <> 0 /\ 4 < 5 < Z.land 10 0xFFFFFFFF /\
  (exists ok, check_div mod_module 255 5 [0x40; 0x33] 1 false = Ok ok) /\
  (forall d', 4 <= d' < 5 ->
     check_div mod_module 255 d' [0x40; 0x33] 1 false = Raise DivisionFailed).
Proof.
  apply (encode_byte_signal_first_divisor mod_module 255 [0x40; 0x33] 4 10 1 5).
  reflexivity.
Defined.

(** ** check_div: the offset search misses no split *)

Lemma combinations_with_replacement_cons (r : nat) (a : Z) (pool : list Z) :
  combinations_with_replacement (S r) (a :: pool)
  = map (cons a) (combinations_with_replacement r (a :: pool))
      ++ combinations_with_replacement (S r) pool.
Proof. reflexivity. Qed.

(** Every multiset over the pool is enumerated, in some order of its
    elements. *)
Lemma combinations_with_replacement_complete (r : nat) :
  forall pool l,
  length l = r -> Forall (fun o => In o pool) l ->
  exists l', In l' (combinations_with_replacement r pool) /\ Permutation l l'.
Proof.
  induction r as [|r IHr]; intros pool l Hlen Hall.
  - destruct l; [|discriminate]; exists []; split; [now left | constructor].
  - induction pool as [|a pool IHp].
    + destruct l as [|o l]; [discriminate|].
      inversion Hall as [|? ? Ho _]; destruct Ho.
    + rewrite combinations_with_replacement_cons.
      destruct (Forall_dec (fun o => In o pool)
                  (fun o => in_dec Z.eq_dec o pool) l) as [Hin|Hnot].
      * destruct (IHp Hin) as (l' & Hl' & HP).
        exists l'; split; [apply in_or_app; now right | exact HP].
      * apply neg_Forall_Exists_neg in Hnot;
          [|intros o; apply (in_dec Z.eq_dec)].
        apply Exists_exists in Hnot; destruct Hnot as (o & Ho & Hno).
        assert (o = a) as ->.
        { destruct (proj1 (Forall_forall _ _) Hall o Ho) as [E|E];
            [now subst | contradiction]. }
        destruct (in_split _ _ Ho) as (l1 & l2 & ->).
        assert (HP : Permutation (l1 ++ a :: l2) (a :: l1 ++ l2))
          by (symmetry; apply Permutation_middle).
        destruct (IHr (a :: pool) (l1 ++ l2)) as (l0 & Hl0 & HP0).
        { rewrite length_app in Hlen |- *; simpl in Hlen; lia. }
        { apply Forall_app in Hall; destruct Hall as [H1 H2].
          inversion H2; subst; apply Forall_app; now split. }
        exists (a :: l0); split.
        -- apply in_or_app; left; now apply in_map.
        -- etransitivity; [exact HP | now constructor].
Qed.

Lemma split_loop_none (n : nat) :
  forall split v m div offsets,
  split_loop n split v m div offsets = None ->
  0 <= split ->
  forall l, split <= Z.of_nat (length l) < split + Z.of_nat n ->
  In l (combinations_with_replacement (length l) offsets) ->
  sum l <> m.
Proof.
  induction n as [|n IH]; intros split v m div offsets H Hs l Hl Hin; [lia|].
  cbn [split_loop] in H.
  destruct (find _ _) eqn:Hf; [discriminate|].
  destruct (Z.eq_dec (Z.of_nat (length l)) split) as [E|E].
  - replace (Z.to_nat split) with (length l) in Hf by lia.
    apply (find_none _ _ Hf) in Hin; now apply Z.eqb_neq.
  - apply (IH _ _ _ _ _ H); [lia | lia | exact Hin].
Qed.

Lemma find_values_complete (x div : Z) (good_bytes : list Z) :
  offset_split_exists x div good_bytes ->
  exists values,
    find_values (x / div) (x mod div) div good_bytes = Some values.
Proof.
  intros (Hv & offset_list & Hlen & Hall & Hsum).
  unfold find_values, offset_split; rewrite (proj2 (mem_In _ _) Hv).
  destruct (split_loop _ _ _ _ _ _) as [values|] eqn:H; [now exists values|].
  exfalso.
  destruct (combinations_with_replacement_complete _ _ offset_list eq_refl Hall)
    as (l' & Hl' & HP).
  pose proof (Permutation_length HP) as Hlen'.
  rewrite Hlen' in Hl'.
  apply (split_loop_none _ _ _ _ _ _ H ltac:(lia) l'); [lia | exact Hl' |].
  now rewrite <- (sum_Permutation _ _ HP).
Qed.

Lemma check_div_from_split (retries : nat) (x div : Z) (good_bytes : list Z)
    (carry : Z) :
  0 <= x -> 1 <= div -> x / div < 256 ->
  offset_split_exists x div good_bytes ->
  exists values,
    check_div_from retries mod_module x div good_bytes carry
      = Ok (carry, values).
Proof.
  intros Hx Hd Hv H; rewrite check_div_from_eq.
  replace (div =? 0) with false by lia.
  replace (256 <=? x / div) with false by lia.
  replace (x / div <? 0) with false
    by (symmetry; apply Z.ltb_ge, Z.div_pos; lia).
  destruct (find_values_complete _ _ _ H) as (values & ->).
  now exists values.
Qed.

(** X2.  On a byte target, the call without retry succeeds exactly when the
    target has an offset split in the sense of step 3 of the specification,
    and then the retry is not used. *)
Theorem check_div_finds_split (x div : Z) (good_bytes : list Z) (carry : Z) :
  0 <= x -> 1 <= div -> x / div < 256 ->
  (offset_split_exists x div good_bytes <->
   exists values,
     check_div mod_module x div good_bytes carry true = Ok (carry, values)) /\
  (offset_split_exists x div good_bytes ->
   check_div mod_module x div good_bytes carry false
   = check_div mod_module x div good_bytes carry true).
Proof.
  intros Hx Hd Hv; unfold check_div; rewrite !check_div_from_eq.
  replace (div =? 0) with false by lia.
  replace (256 <=? x / div) with false by lia.
  replace (x / div <? 0) with false
    by (symmetry; apply Z.ltb_ge, Z.div_pos; lia).
  split; [split|].
  - intros H; destruct (find_values_complete _ _ _ H) as (values & ->).
    now exists values.
  - intros (values & H).
    destruct (find_values _ _ _ _) as [vs|] eqn:Hf; [|discriminate].
    apply find_values_some in Hf.
    destruct Hf as (Hin & offset_list & Hlen & Hall & Hsum & _).
    split; [exact Hin | now exists offset_list].
  - intros H; destruct (find_values_complete _ _ _ H) as (values & ->).
    reflexivity.
Qed.

Lemma check_div_finds_split_witness :
  (offset_split_exists 255 5 [0x40; 0x33] <->
   exists values,
     check_div mod_module 255 5 [0x40; 0x33] 1 true = Ok (1, values)) /\
  (offset_split_exists 255 5 [0x40; 0x33] ->
   check_div mod_module 255 5 [0x40; 0x33] 1 false
   = check_div mod_module 255 5 [0x40; 0x33] 1 true).
Proof.
  apply (check_div_finds_split 255 5 [0x40; 0x33] 1); vm_compute; congruence.
Defined.

(** ** encode_chunk: number of components, ceilings, termination *)

Lemma check_div_one (x : Z) (good_bytes : list Z) (carry : Z) :
  0 <= x ->
  check_div mod_module x 1 good_bytes carry false = Raise DivisionFailed.
Proof.
  intros Hx; unfold check_div; rewrite check_div_from_eq, Z.div_1_r.
  cbn [Z.eqb]; destruct (256 <=? x) eqn:H256; [reflexivity|].
  replace (x <? 0) with false by lia.
  assert (Hnone : forall v m, find_values v m 1 good_bytes = None).
  { intros v m; unfold find_values, offset_split.
    now destruct (mem v good_bytes). }
  rewrite Hnone, check_div_from_eq, Z.div_1_r; cbn [Z.eqb].
  now replace (256 <=? x + 256) with true by lia.
Qed.

Lemma land_byte_range (a : Z) : 0 <= Z.land a 0xFF < 256.
Proof. rewrite land_mask8; apply Z.mod_pos_bound; lia. Qed.

(** The number of rows a pass ends with, and the divisor a pass restarts
    with, lie in [[2, max_div & 0xFFFFFFFF)]. *)
Lemma encode_bytes_div (g : mod_binding) (good_bytes : list Z) (max_div : Z) :
  forall xs st k,
  matrix_inv good_bytes k st -> (k + length xs = 4)%nat ->
  st_div st = 0 \/ 2 <= st_div st < Z.land max_div 0xFFFFFFFF ->
  match encode_bytes g xs good_bytes max_div st with
  | Returned E => 2 <= Z.of_nat (length E) < Z.land max_div 0xFFFFFFFF
  | Caught d _ => 2 <= d < Z.land max_div 0xFFFFFFFF
  | Propagated _ => True
  end.
Proof.
  intros xs; induction xs as [|x0 xs IH]; intros st k Hinv Hk Hdiv.
  - cbn [encode_bytes].
    destruct (map_result u32 (st_encodings st)) as [E|] eqn:HE; [|exact I].
    apply map_result_u32_sum in HE; destruct HE as [_ Hl].
    destruct Hinv as [[_ ->]|(Hd & Hlen & _)]; [discriminate|].
    rewrite Hl, Hlen; lia.
  - cbn [encode_bytes].
    pose proof (encode_byte_spec g (Z.land (x0 - st_carry st) 0xFF) good_bytes
                  (st_div st) max_div (if x0 <? st_carry st then 1 else 0)
                  (land_byte_nonneg _) (matrix_inv_div _ _ _ Hinv)) as Hpost.
    destruct (encode_byte _ _ _ _ _ _) as [[carry' values]|e] eqn:Hb.
    + destruct Hpost as (d & Hd & Hfloor & Hlen & Hall & _).
      unfold encode_byte in Hb; apply encode_byte_loop_ok in Hb.
      destruct Hb as (d2 & Hd2 & Hok & _); unfold check_div in Hok.
      pose proof (check_div_from_ok_div _ _ _ _ _ _ _ _ Hok) as Hge.
      apply check_div_from_ok in Hok; destruct Hok as (Hlen2 & _).
      assert (d2 = d) as -> by lia.
      destruct (append_step good_bytes k st values d Hinv Hd Hfloor Hlen Hall)
        as (encs' & Happ & Hinv' & Hdiv' & _ & _).
      rewrite Happ.
      apply (IH _ (S k)); [apply Hinv' | simpl in Hk |- *; lia |].
      right; cbn [st_div]; lia.
    + destruct e; try exact I.
      cbn in Hpost; pose proof (matrix_inv_div _ _ _ Hinv); lia.
Qed.

Lemma encode_chunk_loop_length (g : mod_binding) (X : Z) (good_bytes : list Z)
    (max_div : Z) (E : list Z) :
  forall fuel st,
  matrix_inv good_bytes 0 st ->
  st_div st = 0 \/ 2 <= st_div st < Z.land max_div 0xFFFFFFFF ->
  encode_chunk_loop fuel g X good_bytes max_div st = Some (Ok E) ->
  2 <= Z.of_nat (length E) < Z.land max_div 0xFFFFFFFF.
Proof.
  intros fuel; induction fuel as [|fuel IH]; intros st Hinv Hdiv H;
    [discriminate|].
  cbn [encode_chunk_loop] in H.
  pose proof (encode_bytes_div g good_bytes max_div (p32 X) st 0 Hinv
                (p32_length X) Hdiv) as Hpass.
  destruct (encode_bytes g (p32 X) good_bytes max_div st) as [E'|d st'|e];
    try discriminate.
  - now injection H as <-.
  - apply IH in H; [exact H | apply restart_inv; lia | now right].
Qed.

(** X9.  An encoding that [encode_chunk] returns has at least two components
    and fewer than [max_div & 0xFFFFFFFF]. *)
Theorem encode_chunk_length (fuel : nat) (g : mod_binding) (c : Z)
    (G : list Z) (i m : Z) (E : list Z) :
  encode_chunk fuel g c G i m = Some (Ok E) ->
  2 <= Z.of_nat (length E) < Z.land m 0xFFFFFFFF.
Proof.
  unfold encode_chunk; intros H.
  eapply encode_chunk_loop_length;
    [apply initial_state_inv | now left | exact H].
Qed.

Lemma encode_chunk_length_witness :
  2 <= Z.of_nat (length [0x77665544; 0x76655444]) < Z.land 10 0xFFFFFFFF.
Proof.
  apply (encode_chunk_length 1 mod_module 0x12345678
           [0x44; 0x54; 0x55; 0x65; 0x66; 0x76; 0x77] 0 10).
  vm_compute; reflexivity.
Defined.

(** X10.  With a ceiling of two or less after masking, [encode_chunk] raises
    [EncodingFailure] on every chunk: the range of divisors is empty or
    holds the divisor 1 only, for which [check_div] always fails. *)
Theorem encode_chunk_small_ceiling (fuel : nat) (c : Z) (G : list Z) (i m : Z) :
  Z.land m 0xFFFFFFFF <= 2 ->
  encode_chunk (S fuel) mod_module c G i m = Some (Raise EncodingFailure).
Proof.
  intros Hm; unfold encode_chunk; cbn [encode_chunk_loop p32 encode_bytes].
  cbn [initial_state st_div st_carry st_encodings].
  set (x := Z.land _ 0xFF).
  assert (Hx : 0 <= x) by apply land_byte_nonneg.
  replace (encode_byte mod_module x G 0 m
             (if Z.land (Z.land (i - c) 0xFFFFFFFF) 255 <? 0 then 1 else 0))
    with (@Raise (Z * list Z) EncodingFailure); [reflexivity|].
  symmetry; unfold encode_byte; cbn [Z.eqb].
  apply encode_byte_loop_failure; intros d Hd.
  assert (d = 1) as -> by lia.
  now apply check_div_one.
Qed.

Lemma encode_chunk_small_ceiling_witness :
  encode_chunk 3 mod_module 5 [1] 0 2 = Some (Raise EncodingFailure).
Proof. apply (encode_chunk_small_ceiling 2 5 [1] 0 2); vm_compute; discriminate. Defined.

(** X11.  [encode_chunk] finishes under every ceiling, the negative ones
    included: one turn more than [max_div & 0xFFFFFFFF] is enough. *)
Theorem encode_chunk_total (g : mod_binding) (c : Z) (G : list Z) (i m : Z) :
  is_bytes G ->
  exists r,
    encode_chunk (S (Z.to_nat (Z.land m 0xFFFFFFFF))) g c G i m = Some r /\
    ((exists E, r = Ok E) \/ r = Raise EncodingFailure \/
     (g = mod_unbound /\ r = Raise NameError)).
Proof.
  intros HG; unfold encode_chunk; apply encode_chunk_loop_terminates;
    [exact HG | apply initial_state_inv | lia |].
  cbn [initial_state st_div]; lia.
Qed.

Lemma encode_chunk_total_witness :
  exists r,
    encode_chunk (S (Z.to_nat (Z.land 6 0xFFFFFFFF))) mod_module 0
                 [0x40; 0x33] 0 6 = Some r /\
    ((exists E, r = Ok E) \/ r = Raise EncodingFailure \/
     (mod_module = mod_unbound /\ r = Raise NameError)).
Proof.
  apply (encode_chunk_total mod_module 0 [0x40; 0x33] 0 6).
  repeat constructor; lia.
Defined.

(** X12.  With the name [mod] unbound [encode_chunk] returns no encoding at all:
    it raises [NameError] at the first divisor tried, or [EncodingFailure]
    when there is no divisor to try. *)
Theorem encode_chunk_unbound (fuel : nat) (c : Z) (G : list Z) (i m : Z) :
  encode_chunk (S fuel) mod_unbound c G i m
  = Some (Raise (if Z.land m 0xFFFFFFFF <=? 1 then EncodingFailure
                 else NameError)).
Proof.
  unfold encode_chunk; cbn [encode_chunk_loop p32 encode_bytes].
  cbn [initial_state st_div st_carry st_encodings].
  set (x := Z.land _ 0xFF).
  assert (Hx : 0 <= x < 256) by apply land_byte_range.
  unfold encode_byte; cbn [Z.eqb].
  destruct (Z.leb_spec (Z.land m 0xFFFFFFFF) 1) as [Hm|Hm].
  - now replace (Z.to_nat (Z.land m 0xFFFFFFFF - 1)) with 0%nat by lia.
  - replace (Z.to_nat (Z.land m 0xFFFFFFFF - 1))
      with (S (Z.to_nat (Z.land m 0xFFFFFFFF - 2))) by lia.
    cbn [encode_byte_loop]; unfold check_div.
    rewrite check_div_from_eq, Z.div_1_r; cbn [Z.eqb].
    now replace (256 <=? x) with false by lia.
Qed.

(** ** When only the null byte is forbidden *)

Lemma offset_split_two (y : Z) (good_bytes : list Z) :
  (forall b, 1 <= b < 256 -> In b good_bytes) ->
  1 <= y / 2 -> y / 2 + y mod 2 < 256 ->
  offset_split_exists y 2 good_bytes.
Proof.
  intros HG Hv Hc; pose proof (Z.mod_pos_bound y 2 ltac:(lia)) as Hm.
  split; [apply HG; lia|].
  exists [y mod 2]; split; [cbn; lia|]; split; [|cbn; lia].
  constructor; [|constructor].
  apply in_map_iff; exists (y / 2 + y mod 2); split; [lia | apply HG; lia].
Qed.

Lemma check_div_two (x : Z) (good_bytes : list Z) (carry : Z) :
  (forall b, 1 <= b < 256 -> In b good_bytes) ->
  0 <= x < 256 ->
  exists carry' values,
    check_div mod_module x 2 good_bytes carry false = Ok (carry', values).
Proof.
  intros HG Hx; unfold check_div.
  destruct (Z_lt_le_dec x 2) as [Hlt|Hge].
  - rewrite check_div_from_eq; cbn [Z.eqb].
    replace (256 <=? x / 2) with false
      by (symmetry; apply Z.leb_gt; Z.div_mod_to_equations; lia).
    replace (x / 2 <? 0) with false
      by (symmetry; apply Z.ltb_ge; Z.div_mod_to_equations; lia).
    destruct (find_values _ _ _ _) as [values|]; [now exists carry, values|].
    destruct (check_div_from_split 0 (x + 256) 2 good_bytes (carry + 1))
      as (values & Hv); [lia | lia | Z.div_mod_to_equations; lia | |].
    + apply offset_split_two; [exact HG|..]; Z.div_mod_to_equations; lia.
    + now exists (carry + 1), values.
  - destruct (check_div_from_split 1 x 2 good_bytes carry)
      as (values & Hv); [lia | lia | Z.div_mod_to_equations; lia | |].
    + apply offset_split_two; [exact HG|..]; Z.div_mod_to_equations; lia.
    + now exists carry, values.
Qed.

Lemma encode_byte_two (x : Z) (good_bytes : list Z) (min_div max_div carry : Z) :
  (forall b, 1 <= b < 256 -> In b good_bytes) ->
  0 <= x < 256 -> min_div = 0 \/ min_div = 2 ->
  3 <= Z.land max_div 0xFFFFFFFF ->
  exists carry' values,
    encode_byte mod_module x good_bytes min_div max_div carry
      = Ok (carry', values) /\
    length values = 2%nat /\ Forall (fun b => In b good_bytes) values.
Proof.
  intros HG Hx Hmin Hmax.
  destruct (check_div_two x good_bytes carry HG Hx) as (carry' & values & Hok).
  exists carry', values; split.
  - unfold encode_byte.
    rewrite (encode_byte_loop_first _ mod_module _ x good_bytes min_div carry 2
               carry' values).
    + now destruct Hmin as [-> | ->].
    + destruct Hmin as [-> | ->]; cbn [Z.eqb]; lia.
    + intros d' Hd'; assert (d' = 1) as ->
        by (destruct Hmin as [-> | ->]; cbn [Z.eqb] in Hd'; lia).
      apply check_div_one; lia.
    + exact Hok.
  - unfold check_div in Hok; apply check_div_from_ok in Hok.
    destruct Hok as (Hlen & Hall & _); split; [exact Hlen | exact Hall].
Qed.

Lemma encode_bytes_two (good_bytes : list Z) (max_div : Z) :
  is_bytes good_bytes ->
  (forall b, 1 <= b < 256 -> In b good_bytes) ->
  3 <= Z.land max_div 0xFFFFFFFF ->
  forall xs st k,
  matrix_inv good_bytes k st -> (k + length xs = 4)%nat ->
  st_div st = 0 \/ st_div st = 2 ->
  exists E,
    encode_bytes mod_module xs good_bytes max_div st = Returned E /\
    length E = 2%nat.
Proof.
  intros HB HG Hmax xs; induction xs as [|x0 xs IH]; intros st k Hinv Hk Hdiv.
  - cbn [encode_bytes].
    destruct Hinv as [[_ ->]|(Hd & Hlen & Hrows)]; [discriminate|].
    replace k with 4%nat in Hrows by (simpl in Hk; lia).
    destruct (map_result_u32_ok good_bytes _ HB Hrows) as (E & -> & Hp).
    exists E; split; [reflexivity|].
    rewrite <- (length_map p32), Hp, Hlen; lia.
  - cbn [encode_bytes].
    destruct (encode_byte_two (Z.land (x0 - st_carry st) 0xFF) good_bytes
                (st_div st) max_div (if x0 <? st_carry st then 1 else 0)
                HG (land_byte_range _) Hdiv Hmax)
      as (carry' & values & -> & Hlen & Hall).
    destruct (append_step good_bytes k st values 2 Hinv ltac:(lia)
                ltac:(lia) Hlen Hall)
      as (encs' & Happ & Hinv' & Hdiv' & _ & _).
    rewrite Happ.
    apply (IH _ (S k)); [apply Hinv' | simpl in Hk |- *; lia |].
    right; cbn [st_div]; exact Hdiv'.
Qed.

(** X13.  With every byte but the null byte allowed (the null byte may be
    allowed too) and a ceiling of three or more, every chunk is encoded on
    the first pass, in exactly two components, and the encoding decodes to
    the chunk. *)
Theorem encode_chunk_nonzero_alphabet (c : Z) (G : list Z) (i m : Z) :
  is_bytes G ->
  (forall b, 1 <= b < 256 -> In b G) ->
  3 <= Z.land m 0xFFFFFFFF ->
  0 <= c < 2 ^ 32 ->
  exists E,
    encode_chunk 1 mod_module c G i m = Some (Ok E) /\
    length E = 2%nat /\
    decode E i = c /\
    Forall (fun e => Forall (fun b => In b G) (p32 e)) E.
Proof.
  intros HB HG Hm Hc.
  destruct (encode_bytes_two G m HB HG Hm
              (p32 (Z.land (i - c) 0xFFFFFFFF)) initial_state 0
              (initial_state_inv G) (p32_length _) ltac:(now left))
    as (E & HE & Hlen).
  assert (Hrun : encode_chunk 1 mod_module c G i m = Some (Ok E))
    by (unfold encode_chunk; cbn [encode_chunk_loop]; now rewrite HE).
  exists E; split; [exact Hrun|]; split; [exact Hlen|]; split.
  - apply pass_decode in HE;
      [| exact Hc | apply initial_state_inv | cbn; lia].
    cbn [initial_state st_carry] in HE.
    now rewrite Z.add_0_r, Z.mod_small in HE by exact Hc.
  - unfold encode_chunk in Hrun.
    exact (encode_chunk_loop_good_bytes mod_module _ G m E HB 1 initial_state
             (initial_state_inv G) Hrun).
Qed.

Lemma encode_chunk_nonzero_alphabet_witness :
  exists E,
    encode_chunk 1 mod_module 0 (map Z.of_nat (seq 1 255)) 0 10 = Some (Ok E) /\
    length E = 2%nat /\
    decode E 0 = 0 /\
    Forall (fun e => Forall (fun b => In b (map Z.of_nat (seq 1 255))) (p32 e)) E.
Proof.
  apply (encode_chunk_nonzero_alphabet 0 (map Z.of_nat (seq 1 255)) 0 10).
  - apply Forall_forall; intros b Hb; apply in_map_iff in Hb.
    destruct Hb as (n & <- & Hn); apply in_seq in Hn; lia.
  - intros b Hb; apply in_map_iff; exists (Z.to_nat b); split; [lia|].
    apply in_seq; lia.
  - vm_compute; discriminate.
  - lia.
Defined.

(** * The chunk loop *)

Lemma u32_inv (row : list Z) (e : Z) :
  u32 row = Ok e ->
  p32 e = row /\ length row = 4%nat /\ 0 <= e < 2 ^ 32.
Proof.
  unfold u32; destruct (forallb is_byte row) eqn:Hb; [|discriminate].
  destruct row as [|b0 [|b1 [|b2 [|b3 [|]]]]]; try discriminate.
  intros H; injection H as <-.
  cbn [forallb] in Hb; unfold is_byte in Hb.
  assert (0 <= b0 < 256 /\ 0 <= b1 < 256 /\ 0 <= b2 < 256 /\ 0 <= b3 < 256)
    as (H0 & H1 & H2 & H3) by lia.
  split; [now apply p32_u32 | split; [reflexivity | lia]].
Qed.

Lemma u32_ljust (read : list Z) :
  is_bytes read -> (length read <= 4)%nat ->
  exists chunk, u32 (ljust read 4 0) = Ok chunk.
Proof.
  intros Hb Hlen.
  assert (Hrow : is_bytes (ljust read 4 0)).
  { apply Forall_app; split; [exact Hb|].
    apply Forall_forall; intros b H; apply repeat_spec in H; lia. }
  destruct (u32_ok (ljust read 4 0) (ljust read 4 0) Hrow) as (e & He & _).
  - unfold ljust; rewrite length_app, repeat_length; lia.
  - apply Forall_forall; now intros b H.
  - now exists e.
Qed.

Lemma verify_chunk_true (chunk : Z) (encodings : list Z) (initial : Z) :
  negb (verify_chunk chunk encodings initial) = false ->
  decode encodings initial = chunk.
Proof.
  unfold verify_chunk; intros H; apply negb_false_iff, Z.eqb_eq in H.
  now symmetry.
Qed.

(** What a completed loop has appended to [chunks]: one verified encoding
    for each group of four bytes, the last group padded. *)
Lemma main_loop_completed (g : mod_binding) (good_bytes : list Z)
    (initial max_div offset : Z) :
  forall fuel data acc chunks,
  main_loop fuel g data good_bytes initial max_div offset acc
    = Some (Completed chunks) ->
  exists new pad,
    chunks = acc ++ new /\ (pad < 4)%nat /\
    concat (map (fun E => p32 (decode E initial)) new) = data ++ repeat 0 pad /\
    Forall (fun E => exists chunk,
              encode_chunk_call g chunk good_bytes initial max_div
                = Some (Ok E)) new.
Proof.
  intros fuel; induction fuel as [|fuel IH]; intros data acc chunks H;
    [discriminate|].
  cbn [main_loop] in H.
  destruct (firstn 4 data) as [|b read] eqn:Hread.
  - injection H as <-; exists [], 0%nat.
    destruct data; [|discriminate].
    rewrite app_nil_r; repeat split; [lia | constructor].
  - destruct (u32 (ljust (b :: read) 4 0)) as [chunk|] eqn:Hu; [|discriminate].
    destruct (encode_chunk_call g chunk good_bytes initial max_div)
      as [[E|e]|] eqn:Hcall; [| destruct e; discriminate | discriminate].
    destruct (negb (verify_chunk chunk E initial)) eqn:Hv; [discriminate|].
    apply verify_chunk_true in Hv.
    apply IH in H; destruct H as (new & pad & -> & Hpad & Hcat & Hall).
    apply u32_inv in Hu; destruct Hu as (Hp & Hlen & _).
    rewrite <- Hread in Hp, Hlen.
    destruct (Nat.le_gt_cases 4 (length data)) as [Hge|Hlt].
    + exists (E :: new), pad; rewrite <- app_assoc; split; [reflexivity|].
      split; [exact Hpad|]; split; [|constructor; [now exists chunk | exact Hall]].
      cbn [map concat]; rewrite Hv, Hp, Hcat.
      unfold ljust; rewrite length_firstn, Nat.min_l by lia.
      cbn [Nat.sub repeat]; rewrite app_nil_r, app_assoc.
      now rewrite firstn_skipn.
    + assert (Hskip : skipn 4 data = []) by (apply skipn_all2; lia).
      assert (Hfirst : firstn 4 data = data) by (apply firstn_all2; lia).
      rewrite Hskip in Hcat; rewrite Hfirst in Hp, Hread.
      destruct new as [|E' new'].
      * assert (pad = 0%nat) as -> by (destruct pad; [reflexivity|discriminate]).
        exists [E], (4 - length data)%nat; rewrite <- app_assoc.
        split; [reflexivity|]; split.
        -- rewrite Hread; cbn [length]; lia.
        -- split; [|constructor; [now exists chunk | constructor]].
           cbn [map concat]; now rewrite Hv, Hp, app_nil_r.
      * exfalso; cbn [map concat] in Hcat.
        apply (f_equal (@length Z)) in Hcat.
        rewrite !length_app, repeat_length in Hcat.
        cbn [length p32] in Hcat; lia.
Qed.

Lemma concat_p32_length (f : list Z -> Z) (chunks : list (list Z)) :
  length (concat (map (fun E => p32 (f E)) chunks)) = (4 * length chunks)%nat.
Proof.
  induction chunks as [|E chunks IH]; [reflexivity|].
  cbn [map concat]; rewrite length_app, IH; cbn [length p32]; lia.
Qed.

(** X14.  A run that completes has printed, for every group of four input bytes,
    an encoding that decodes to that group: the decoded values, packed
    least significant byte first, are the input followed by fewer than four
    null bytes of padding. *)
Theorem run_round_trip (g : mod_binding) (data G : list Z) (initial max_div : Z)
    (chunks : list (list Z)) :
  run g data G initial max_div = Some (Completed chunks) ->
  exists pad,
    (pad < 4)%nat /\
    (length data + pad = 4 * length chunks)%nat /\
    concat (map (fun E => p32 (decode E initial)) chunks)
      = data ++ repeat 0 pad.
Proof.
  unfold run; intros H; apply main_loop_completed in H.
  destruct H as (new & pad & -> & Hpad & Hcat & _); cbn [app].
  exists pad; split; [exact Hpad|]; split; [|exact Hcat].
  rewrite <- (concat_p32_length (fun E => decode E initial)), Hcat.
  now rewrite length_app, repeat_length.
Qed.

Lemma run_round_trip_witness :
  exists pad,
    (pad < 4)%nat /\
    Nat.add (length [1; 2; 3; 4; 5]) pad
      = Nat.mul 4%nat (length [[0x7e7e7f80; 0x7d7e7e7f];
                               [0x8080807e; 0x7f7f7f7d]]) /\
    concat (map (fun E => p32 (decode E 0))
                [[0x7e7e7f80; 0x7d7e7e7f]; [0x8080807e; 0x7f7f7f7d]])
      = [1; 2; 3; 4; 5] ++ repeat 0 pad.
Proof.
  apply (run_round_trip mod_module [1; 2; 3; 4; 5]
           [0x44; 0x54; 0x55; 0x65; 0x66; 0x76; 0x77; 0x7f; 0x80; 0x7e; 0x7d;
            0x01; 0x02] 0 10).
  vm_compute; reflexivity.
Defined.

(** X15.  Every encoding printed by a run that completes is made of good bytes
    and has at least two components and fewer than
    [max_div & 0xFFFFFFFF]. *)
Theorem run_encodings (g : mod_binding) (data G : list Z) (initial max_div : Z)
    (chunks : list (list Z)) :
  is_bytes G ->
  run g data G initial max_div = Some (Completed chunks) ->
  Forall (fun E =>
            2 <= Z.of_nat (length E) < Z.land max_div 0xFFFFFFFF /\
            Forall (fun e => Forall (fun b => In b G) (p32 e)) E) chunks.
Proof.
  unfold run; intros HG H; apply main_loop_completed in H.
  destruct H as (new & pad & -> & _ & _ & Hall); cbn [app].
  eapply Forall_impl; [|exact Hall].
  intros E (chunk & Hcall); unfold encode_chunk_call, encode_chunk in Hcall.
  split.
  - eapply encode_chunk_loop_length;
      [apply initial_state_inv | now left | exact Hcall].
  - eapply encode_chunk_loop_good_bytes;
      [exact HG | apply initial_state_inv | exact Hcall].
Qed.

Lemma run_encodings_witness :
  Forall (fun E =>
            2 <= Z.of_nat (length E) < Z.land 10 0xFFFFFFFF /\
            Forall (fun e => Forall (fun b => In b [0x44; 0x54; 0x55; 0x65;
                                                     0x66; 0x76; 0x77])
                                    (p32 e)) E)
         [[0x77665544; 0x76655444]].
Proof.
  apply (run_encodings mod_module [0x78; 0x56; 0x34; 0x12]
           [0x44; 0x54; 0x55; 0x65; 0x66; 0x76; 0x77] 0 10).
  - repeat constructor; lia.
  - vm_compute; reflexivity.
Defined.

Lemma main_loop_offset (g : mod_binding) (good_bytes : list Z)
    (initial max_div offset : Z) (msg : log_message) :
  forall fuel data acc,
  main_loop fuel g data good_bytes initial max_div offset acc
    = Some (ErrorLogged msg) ->
  message_offset msg = offset.
Proof.
  intros fuel; induction fuel as [|fuel IH]; intros data acc H; [discriminate|].
  cbn [main_loop] in H.
  destruct (firstn 4 data) as [|b read]; [discriminate|].
  destruct (u32 _) as [chunk|]; [|discriminate].
  destruct (encode_chunk_call _ _ _ _ _) as [[E|e]|]; [| |discriminate].
  - destruct (negb _); [now injection H as <- | now apply IH in H].
  - destruct e; try discriminate; now injection H as <-.
Qed.

(** X17.  The offset in an error message is 0 whichever chunk the error is
    about: [offset] is set before the loop and never advanced. *)
Theorem run_error_offset (g : mod_binding) (data G : list Z)
    (initial max_div : Z) (msg : log_message) :
  run g data G initial max_div = Some (ErrorLogged msg) ->
  message_offset msg = 0.
Proof. unfold run; apply main_loop_offset. Qed.

Lemma run_error_offset_witness :
  message_offset (FailedToEncode 0 0x345678) = 0.
Proof.
  apply (run_error_offset mod_module [0x78; 0x56; 0x34; 0x12; 0x78; 0x56; 0x34]
           [0x44; 0x54; 0x55; 0x65; 0x66; 0x76; 0x77; 0x4c; 0x4b] 0 10).
  vm_compute; reflexivity.
Defined.

Lemma is_bytes_firstn_skipn (n : nat) (data : list Z) :
  is_bytes data -> is_bytes (firstn n data) /\ is_bytes (skipn n data).
Proof.
  intros H; rewrite <- (firstn_skipn n data) in H.
  now apply Forall_app in H.
Qed.

Lemma is_bytes_firstn (n : nat) (data : list Z) :
  is_bytes data -> is_bytes (firstn n data).
Proof. intros H; now apply is_bytes_firstn_skipn. Qed.

Lemma is_bytes_skipn (n : nat) (data : list Z) :
  is_bytes data -> is_bytes (skipn n data).
Proof. intros H; now apply is_bytes_firstn_skipn. Qed.

Lemma encode_chunk_call_ends (g : mod_binding) (chunk : Z) (G : list Z)
    (initial max_div : Z) :
  is_bytes G ->
  exists r,
    encode_chunk_call g chunk G initial max_div = Some r /\
    ((exists E, r = Ok E) \/ r = Raise EncodingFailure \/
     (g = mod_unbound /\ r = Raise NameError)).
Proof.
  intros HG; unfold encode_chunk_call, encode_chunk.
  apply encode_chunk_loop_terminates;
    [exact HG | apply initial_state_inv | lia |].
  cbn [initial_state st_div]; lia.
Qed.

Lemma main_loop_ends (g : mod_binding) (G : list Z) (initial max_div offset : Z) :
  is_bytes G ->
  forall fuel data acc,
  is_bytes data -> (length data < fuel)%nat ->
  exists o,
    main_loop fuel g data G initial max_div offset acc = Some o /\
    forall e, o = Uncaught e -> g = mod_unbound /\ e = NameError.
Proof.
  intros HG fuel; induction fuel as [|fuel IH]; intros data acc Hdata Hfuel;
    [lia|].
  cbn [main_loop].
  destruct (firstn 4 data) as [|b read] eqn:Hread.
  - eexists; split; [reflexivity | discriminate].
  - destruct (u32_ljust (b :: read)) as (chunk & ->).
    { rewrite <- Hread; now apply is_bytes_firstn. }
    { rewrite <- Hread, length_firstn; lia. }
    destruct (encode_chunk_call_ends g chunk G initial max_div HG)
      as (r & -> & [(E & ->)|[->|[-> ->]]]).
    + destruct (negb (verify_chunk chunk E initial)).
      * eexists; split; [reflexivity | discriminate].
      * apply IH; [now apply is_bytes_skipn|].
        rewrite length_skipn; destruct data; [discriminate | simpl in *; lia].
    + eexists; split; [reflexivity | discriminate].
    + eexists; split; [reflexivity|].
      intros e He; injection He as <-; now split.
Qed.

(** X16.  On an input of bytes and with good bytes that are bytes, the loop
    ends for every ceiling, and it ends by completing or at a call of
    [log.error]: no other exception leaves it (but [NameError], should
    [mod] be unbound). *)
Theorem run_ends (g : mod_binding) (data G : list Z) (initial max_div : Z) :
  is_bytes G -> is_bytes data ->
  exists o,
    run g data G initial max_div = Some o /\
    forall e, o = Uncaught e -> g = mod_unbound /\ e = NameError.
Proof.
  intros HG Hdata; unfold run; apply main_loop_ends; [exact HG | exact Hdata|].
  lia.
Qed.

Lemma run_ends_witness :
  exists o,
    run mod_module [0; 0; 0; 0] [0x40; 0x33] 0 10 = Some o /\
    forall e, o = Uncaught e -> mod_module = mod_unbound /\ e = NameError.
Proof.
  apply (run_ends mod_module [0; 0; 0; 0] [0x40; 0x33] 0 10);
    repeat constructor; lia.
Defined.

Lemma main_loop_two (G : list Z) (initial max_div offset : Z) :
  is_bytes G ->
  (forall b, 1 <= b < 256 -> In b G) ->
  3 <= Z.land max_div 0xFFFFFFFF ->
  forall fuel data acc,
  is_bytes data -> (length data < fuel)%nat ->
  exists new,
    main_loop fuel mod_module data G initial max_div offset acc
      = Some (Completed (acc ++ new)) /\
    Forall (fun E => length E = 2%nat) new.
Proof.
  intros HB HG Hmax fuel; induction fuel as [|fuel IH];
    intros data acc Hdata Hfuel; [lia|].
  cbn [main_loop].
  destruct (firstn 4 data) as [|b read] eqn:Hread.
  - exists []; rewrite app_nil_r; split; [reflexivity | constructor].
  - destruct (u32_ljust (b :: read)) as (chunk & Hu).
    { rewrite <- Hread; now apply is_bytes_firstn. }
    { rewrite <- Hread, length_firstn; lia. }
    rewrite Hu; apply u32_inv in Hu; destruct Hu as (_ & _ & Hchunk).
    destruct (encode_bytes_two G max_div HB HG Hmax
                (p32 (Z.land (initial - chunk) 0xFFFFFFFF)) initial_state 0
                (initial_state_inv G) (p32_length _) ltac:(now left))
      as (E & HE & Hlen).
    assert (Hcall : encode_chunk_call mod_module chunk G initial max_div
                    = Some (Ok E)).
    { unfold encode_chunk_call, encode_chunk; cbn [encode_chunk_loop].
      now rewrite HE. }
    rewrite Hcall.
    apply pass_decode in HE;
      [| exact Hchunk | apply initial_state_inv | cbn; lia].
    cbn [initial_state st_carry] in HE.
    rewrite Z.add_0_r, Z.mod_small in HE by exact Hchunk.
    unfold verify_chunk; rewrite HE, Z.eqb_refl; cbn [negb].
    destruct (IH (skipn 4 data) (acc ++ [E])) as (new & -> & Hall).
    { now apply is_bytes_skipn. }
    { rewrite length_skipn; destruct data; [discriminate | simpl in *; lia]. }
    exists (E :: new); rewrite <- app_assoc; split; [reflexivity|].
    now constructor.
Qed.



(** ** Witnesses of the earlier statements *)

Lemma round_trip_first_pass_witness :
  decode [0x77665544; 0x76655444] 0 = 0x12345678.
Proof.
  apply (round_trip_first_pass mod_module 0x12345678
           [0x44; 0x54; 0x55; 0x65; 0x66; 0x76; 0x77] 0 10).
  - lia.
  - vm_compute; reflexivity.
Defined.

Lemma round_trip_up_to_carry_witness :
  decode [0x33333333; 0x33333333; 0x33333333; 0x33333333; 0x33333333] 0 = 0 \/
  decode [0x33333333; 0x33333333; 0x33333333; 0x33333333; 0x33333333] 0
    = (0 + 1) mod 2 ^ 32.
Proof.
  apply (round_trip_up_to_carry 2 mod_module 0 [0x40; 0x33] 0 10).
  - repeat constructor; lia.
  - lia.
  - vm_compute; reflexivity.
Defined.

Lemma check_div_equal_split_ge2_witness :
  check_div mod_module 0x82 2 [0x41] 0 false
    = Ok (0, repeat (0x82 / 2) (Z.to_nat 2)).
Proof.
  apply (check_div_equal_split_ge2 0x82 2 [0x41] 0 false);
    try reflexivity; try lia.
  now left.
Defined.

Lemma encode_byte_failure_witness :
  encode_byte mod_module 191 [65] 0 3 0 = Raise EncodingFailure.
Proof.
  apply (proj2 (encode_byte_failure mod_module 191 [65] 0 3 0)).
  intros d Hd; change (start_div_of 0) with 1 in Hd.
  change (Z.land 3 0xFFFFFFFF) with 3 in Hd.
  assert (d = 1 \/ d = 2) as [-> | ->] by lia; reflexivity.
Defined.

(** * Determinism *)

Lemma same_bytes_sym (G G' : list Z) : same_bytes G G' -> same_bytes G' G.
Proof. intros H b; symmetry; apply H. Qed.

Lemma same_bytes_is_bytes (G G' : list Z) :
  same_bytes G G' -> is_bytes G -> is_bytes G'.
Proof.
  intros H HG; apply Forall_forall; intros b Hb.
  apply (proj1 (Forall_forall _ _) HG), H, Hb.
Qed.

Lemma offset_split_exists_same (x div : Z) (G G' : list Z) :
  same_bytes G G' ->
  offset_split_exists x div G -> offset_split_exists x div G'.
Proof.
  intros H (Hv & offset_list & Hlen & Hall & Hsum).
  split; [now apply H|].
  exists offset_list; split; [exact Hlen|]; split; [|exact Hsum].
  eapply Forall_impl; [|exact Hall].
  intros o Ho; apply in_map_iff in Ho; destruct Ho as (c & <- & Hc).
  apply in_map_iff; exists c; split; [reflexivity | now apply H].
Qed.

Lemma find_values_same (x div : Z) (G G' : list Z) (values : list Z) :
  same_bytes G G' ->
  find_values (x / div) (x mod div) div G = Some values ->
  exists values', find_values (x / div) (x mod div) div G' = Some values'.
Proof.
  intros H Hf; apply find_values_complete.
  apply (offset_split_exists_same x div G G' H).
  apply find_values_some in Hf.
  destruct Hf as (Hv & offset_list & Hlen & Hall & Hsum & _).
  split; [exact Hv | now exists offset_list].
Qed.

(** Whether [check_div] succeeds, the carry it returns and the sum of its
    values depend on the set of good bytes only. *)
Lemma check_div_from_same (G G' : list Z) :
  same_bytes G G' ->
  forall retries g x div carry,
  same_split (check_div_from retries g x div G carry)
             (check_div_from retries g x div G' carry).
Proof.
  intros H retries; induction retries as [|retries IH]; intros g x div carry;
    rewrite !(check_div_from_eq _ g x);
    destruct (div =? 0); try reflexivity;
    destruct (256 <=? x / div); try reflexivity;
    destruct g; try reflexivity;
    destruct (x / div <? 0); try reflexivity;
    destruct (find_values (x / div) (x mod div) div G) as [vs|] eqn:Hf;
    destruct (find_values (x / div) (x mod div) div G') as [vs'|] eqn:Hf';
    try (destruct (find_values_same _ _ _ _ _ H Hf) as (? & E);
         rewrite E in Hf'; discriminate);
    try (destruct (find_values_same _ _ _ _ _ (same_bytes_sym _ _ H) Hf')
           as (? & E); rewrite E in Hf; discriminate);
    try (apply find_values_values in Hf, Hf';
         destruct Hf as (Hl & _ & Hs), Hf' as (Hl' & _ & Hs');
         cbn; repeat split; congruence).
  - reflexivity.
  - apply IH.
Qed.

Lemma encode_byte_loop_same (G G' : list Z) :
  same_bytes G G' ->
  forall n g div x min_div carry,
  same_split (encode_byte_loop n g div x G min_div carry)
             (encode_byte_loop n g div x G' min_div carry).
Proof.
  intros H n; induction n as [|n IH]; intros g div x min_div carry;
    [reflexivity|].
  cbn [encode_byte_loop]; unfold check_div.
  pose proof (check_div_from_same G G' H 1 g x div carry) as Hrel.
  destruct (check_div_from 1 g x div G carry) as [[c vs]|e],
           (check_div_from 1 g x div G' carry) as [[c' vs']|e'];
    cbn in Hrel; try contradiction.
  - destruct Hrel as (<- & Hl & Hs).
    destruct (negb (min_div =? 0) && (min_div <? div)); cbn;
      [reflexivity | now repeat split].
  - subst e'; destruct e; try reflexivity; apply IH.
Qed.

Lemma encode_byte_same (G G' : list Z) (g : mod_binding)
    (x min_div max_div carry : Z) :
  same_bytes G G' ->
  same_split (encode_byte g x G min_div max_div carry)
             (encode_byte g x G' min_div max_div carry).
Proof. intros H; unfold encode_byte; now apply encode_byte_loop_same. Qed.

Lemma encode_bytes_same (g : mod_binding) (G G' : list Z) (max_div : Z) :
  is_bytes G -> is_bytes G' -> same_bytes G G' ->
  forall xs st st' k,
  matrix_inv G k st -> matrix_inv G' k st' ->
  st_div st = st_div st' -> st_carry st = st_carry st' ->
  matrix_sum_of st = matrix_sum_of st' ->
  (k + length xs = 4)%nat ->
  same_pass (encode_bytes g xs G max_div st)
            (encode_bytes g xs G' max_div st').
Proof.
  intros HG HG' H xs; induction xs as [|x0 xs IH];
    intros st st' k Hinv Hinv' Hdiv Hcarry Hms Hk.
  - cbn [encode_bytes].
    destruct Hinv as [[_ ->]|(Hd & Hlen & Hrows)]; [discriminate|].
    destruct Hinv' as [[_ ->]|(Hd' & Hlen' & Hrows')]; [discriminate|].
    replace k with 4%nat in Hrows, Hrows' by (simpl in Hk; lia).
    destruct (map_result_u32_ok G _ HG Hrows) as (E & HE & _).
    destruct (map_result_u32_ok G' _ HG' Hrows') as (E' & HE' & _).
    rewrite HE, HE'; cbn.
    apply map_result_u32_sum in HE, HE'.
    destruct HE as [Hs Hl], HE' as [Hs' Hl'].
    unfold matrix_sum_of in Hms.
    replace (st_div st =? 0) with false in Hms by lia.
    replace (st_div st' =? 0) with false in Hms by lia.
    split; [lia | congruence].
  - cbn [encode_bytes]; rewrite <- Hdiv, <- Hcarry.
    set (x := Z.land (x0 - st_carry st) 0xFF).
    set (carry := if x0 <? st_carry st then 1 else 0).
    pose proof (encode_byte_same G G' g x (st_div st) max_div carry H) as Hrel.
    pose proof (encode_byte_spec g x G (st_div st) max_div carry
                  (land_byte_nonneg _) (matrix_inv_div _ _ _ Hinv)) as Hpost.
    pose proof (encode_byte_spec g x G' (st_div st) max_div carry
                  (land_byte_nonneg _) (matrix_inv_div _ _ _ Hinv)) as Hpost'.
    destruct (encode_byte g x G (st_div st) max_div carry)
      as [[carry1 values]|e],
      (encode_byte g x G' (st_div st) max_div carry)
      as [[carry1' values']|e']; cbn in Hrel; try contradiction.
    + destruct Hrel as (<- & Hl & Hs).
      destruct Hpost as (d & Hd & Hfloor & Hlen & Hall & _).
      destruct Hpost' as (d' & Hd' & Hfloor' & Hlen' & Hall' & _).
      assert (d' = d) as -> by lia.
      rewrite Hdiv in Hfloor'.
      destruct (append_step G k st values d Hinv Hd Hfloor Hlen Hall)
        as (encs & Happ & Hnew & Hdv & _ & Hsum).
      destruct (append_step G' k st' values' d Hinv' Hd Hfloor' Hlen' Hall')
        as (encs' & Happ' & Hnew' & Hdv' & _ & Hsum').
      rewrite <- Hdiv in Happ', Hnew', Hdv'.
      rewrite Happ.
      rewrite Happ'.
      apply (IH _ _ (S k)); [apply Hnew | apply Hnew' | | | |].
      * cbn [st_div]; congruence.
      * reflexivity.
      * unfold matrix_sum_of; cbn [st_div st_encodings]; rewrite Hdv, Hdv'.
        replace (d =? 0) with false by lia.
        rewrite Hsum, Hsum', Hms, Hs; reflexivity.
      * simpl in Hk |- *; lia.
    + subst e'; destruct e; cbn; try reflexivity.
      split; reflexivity.
Qed.

Lemma encode_chunk_loop_same (g : mod_binding) (X : Z) (G G' : list Z)
    (max_div : Z) :
  is_bytes G -> is_bytes G' -> same_bytes G G' ->
  forall fuel st st' r r',
  matrix_inv G 0 st -> matrix_inv G' 0 st' ->
  st_div st = st_div st' -> st_carry st = st_carry st' ->
  matrix_sum_of st = matrix_sum_of st' ->
  encode_chunk_loop fuel g X G max_div st = Some r ->
  encode_chunk_loop fuel g X G' max_div st' = Some r' ->
  match r, r' with
  | Ok E, Ok E' => length E = length E' /\ sum E = sum E'
  | Raise e, Raise e' => e = e'
  | _, _ => False
  end.
Proof.
  intros HG HG' H fuel; induction fuel as [|fuel IH];
    intros st st' r r' Hinv Hinv' Hdiv Hcarry Hms Hr Hr'; [discriminate|].
  cbn [encode_chunk_loop] in Hr, Hr'.
  pose proof (encode_bytes_same g G G' max_div HG HG' H (p32 X) st st' 0
                Hinv Hinv' Hdiv Hcarry Hms (p32_length X)) as Hrel.
  pose proof (encode_bytes_spec g G max_div HG (p32 X) st 0 Hinv
                (p32_length X)) as Hpost.
  destruct (encode_bytes g (p32 X) G max_div st) as [E|d s|e],
           (encode_bytes g (p32 X) G' max_div st') as [E'|d' s'|e'];
    cbn in Hrel, Hpost; try contradiction.
  - injection Hr as <-; injection Hr' as <-; exact Hrel.
  - destruct Hrel as [<- Hc].
    assert (Hd : 1 <= d) by (apply matrix_inv_div in Hinv; lia).
    assert (Hzero : forall s0, matrix_sum_of (restart d s0) = 0).
    { intros s0; unfold matrix_sum_of; cbn [restart st_div st_encodings].
      replace (d =? 0) with false by lia.
      apply matrix_sum_empty_rows.
      destruct (empty_matrix_inv G d) as [_ Hr0].
      eapply Forall_impl; [|exact Hr0]; now intros row [? _]. }
    apply (IH (restart d s) (restart d s') r r');
      [now apply restart_inv | now apply restart_inv | reflexivity
       | exact Hc | now rewrite !Hzero | exact Hr | exact Hr'].
  - injection Hr as <-; injection Hr' as <-; exact Hrel.
Qed.


